(** * A shallow embedding of the 3D tree view of UniConfig
    (src/source/threedview.py: classes [TreeNode3D] and [TreeView3D]).

    Python floats are modelled by the reals [R]; [math.sin] and [math.cos]
    by [sin] and [cos].  A Python [dict] (insertion ordered) is modelled by
    an association list with the same insertion-order semantics, and a
    Python exception escaping an event handler by the [Err] outcome.  The
    random draws made by [TreeNode3D.__init__] are an explicit argument. *)

From Stdlib Require Import Reals Lra Lia List String ZArith Bool.
From Stdlib Require Import Permutation Sorted Classical_Prop.
Import ListNotations.

Open Scope R_scope.

(** ** Outcomes: normal return, a raised exception, or running out of
    fuel (the model of unbounded recursion). *)

Inductive exn := ZeroDivisionError | KeyError.

Inductive outcome (A : Type) :=
| Ok (a : A)
| Err (e : exn)
| OutOfFuel.
Arguments Ok {A} a.
Arguments Err {A} e.
Arguments OutOfFuel {A}.

Definition bind {A B} (m : outcome A) (f : A -> outcome B) : outcome B :=
  match m with
  | Ok a => f a
  | Err e => Err e
  | OutOfFuel => OutOfFuel
  end.

Notation "x <- m ;; k" := (bind m (fun x => k))
  (at level 61, m at next level, right associativity).

(** Python's [a / b] on floats: raises [ZeroDivisionError] when [b = 0]. *)
Definition pydiv (a b : R) : outcome R :=
  if Req_dec_T b 0 then Err ZeroDivisionError else Ok (a / b).

(** Python's [int(r)] on a float truncates toward zero. *)
Definition py_int (r : R) : R :=
  if Rle_dec 0 r then IZR (Int_part r) else - IZR (Int_part (- r)).

(** ** Python dicts as insertion-ordered association lists *)

Section Dict.
Context {V : Type}.

Fixpoint dict_get (k : string) (d : list (string * V)) : option V :=
  match d with
  | [] => None
  | (k', v) :: d' => if String.eqb k k' then Some v else dict_get k d'
  end.

Definition dict_mem (k : string) (d : list (string * V)) : bool :=
  match dict_get k d with Some _ => true | None => false end.

(** [d[k] = v]: an existing key keeps its place, a new key goes last. *)
Fixpoint dict_set (k : string) (v : V) (d : list (string * V))
  : list (string * V) :=
  match d with
  | [] => [(k, v)]
  | (k', v') :: d' =>
      if String.eqb k k' then (k', v) :: d' else (k', v') :: dict_set k v d'
  end.

Definition dict_values (d : list (string * V)) : list V := map snd d.

End Dict.

(** ** [TreeNode3D] *)

(** The values [TreeNode3D.__init__] draws with [random.uniform] and
    [random.randint]. *)
Record Cosmetic := mkCosmetic {
  r_x : R; r_y : R; r_z : R;
  r_color : Z * Z * Z;
  r_width : R; r_height : R; r_depth : R
}.

Record TreeNode3D := mkNode {
  title : string;
  node_id : string;
  parent_id : option string;
  x : R; y : R; z : R;
  px : R; py : R;
  color : Z * Z * Z;
  width : R; height : R; depth : R;
  hovered : bool;
  dragging : bool;
  orig_x : R; orig_y : R; orig_z : R
}.

(** [TreeNode3D(title, node_id, parent_id)] *)
Definition new_TreeNode3D (c : Cosmetic) (t id : string) (p : option string)
  : TreeNode3D :=
  {| title := t; node_id := id; parent_id := p;
     x := r_x c; y := r_y c; z := r_z c; px := 0; py := 0;
     color := r_color c;
     width := r_width c; height := r_height c; depth := r_depth c;
     hovered := false; dragging := false;
     orig_x := r_x c; orig_y := r_y c; orig_z := r_z c |}.

Definition set_position (n : TreeNode3D) (x' y' z' : R) : TreeNode3D :=
  {| title := title n; node_id := node_id n; parent_id := parent_id n;
     x := x'; y := y'; z := z'; px := px n; py := py n;
     color := color n; width := width n; height := height n; depth := depth n;
     hovered := hovered n; dragging := dragging n;
     orig_x := orig_x n; orig_y := orig_y n; orig_z := orig_z n |}.

Definition store_original_position (n : TreeNode3D) : TreeNode3D :=
  {| title := title n; node_id := node_id n; parent_id := parent_id n;
     x := x n; y := y n; z := z n; px := px n; py := py n;
     color := color n; width := width n; height := height n; depth := depth n;
     hovered := hovered n; dragging := dragging n;
     orig_x := x n; orig_y := y n; orig_z := z n |}.

Definition update_position_by_offset (n : TreeNode3D) (dx dy dz : R)
  : TreeNode3D :=
  set_position n (orig_x n + dx) (orig_y n + dy) (orig_z n + dz).

Definition set_dragging (n : TreeNode3D) (b : bool) : TreeNode3D :=
  {| title := title n; node_id := node_id n; parent_id := parent_id n;
     x := x n; y := y n; z := z n; px := px n; py := py n;
     color := color n; width := width n; height := height n; depth := depth n;
     hovered := hovered n; dragging := b;
     orig_x := orig_x n; orig_y := orig_y n; orig_z := orig_z n |}.

Definition set_projection (n : TreeNode3D) (p : R * R) : TreeNode3D :=
  {| title := title n; node_id := node_id n; parent_id := parent_id n;
     x := x n; y := y n; z := z n; px := fst p; py := snd p;
     color := color n; width := width n; height := height n; depth := depth n;
     hovered := hovered n; dragging := dragging n;
     orig_x := orig_x n; orig_y := orig_y n; orig_z := orig_z n |}.

(** ** [TreeView3D]: camera, scene and interaction state *)

Record TreeView3D := mkView {
  camera_distance : R;
  rotation_x : R; rotation_y : R; rotation_z : R;
  scale : R;
  center_x : R; center_y : R;
  nodes : list (string * TreeNode3D);
  connections : list (string * string);
  selected_node : option string;
  hovered_node : option string;
  mouse_down : bool;
  last_mouse_pos : Z * Z
}.

Definition with_nodes (v : TreeView3D) (ns : list (string * TreeNode3D))
  : TreeView3D :=
  {| camera_distance := camera_distance v; rotation_x := rotation_x v;
     rotation_y := rotation_y v; rotation_z := rotation_z v; scale := scale v;
     center_x := center_x v; center_y := center_y v;
     nodes := ns; connections := connections v;
     selected_node := selected_node v; hovered_node := hovered_node v;
     mouse_down := mouse_down v; last_mouse_pos := last_mouse_pos v |}.

(** ** [TreeView3D.project_point] *)

Definition project_point (v : TreeView3D) (x y z : R) : R * R :=
  let y2 := y * cos (rotation_x v) - z * sin (rotation_x v) in
  let z2 := y * sin (rotation_x v) + z * cos (rotation_x v) in
  let x3 := x * cos (rotation_y v) + z2 * sin (rotation_y v) in
  let z3 := - x * sin (rotation_y v) + z2 * cos (rotation_y v) in
  let x4 := x3 * cos (rotation_z v) - y2 * sin (rotation_z v) in
  let y4 := x3 * sin (rotation_z v) + y2 * cos (rotation_z v) in
  let f := 1000 in
  if Rle_dec (z3 + camera_distance v) 0 then (center_x v, center_y v)
  else
    let scale_factor := f / (z3 + camera_distance v) * scale v in
    (x4 * scale_factor + center_x v, y4 * scale_factor + center_y v).

(** Setters for the fields the event handlers assign. *)
Definition with_selection (v : TreeView3D) (sel hov : option string)
  : TreeView3D :=
  {| camera_distance := camera_distance v; rotation_x := rotation_x v;
     rotation_y := rotation_y v; rotation_z := rotation_z v; scale := scale v;
     center_x := center_x v; center_y := center_y v;
     nodes := nodes v; connections := connections v;
     selected_node := sel; hovered_node := hov;
     mouse_down := mouse_down v; last_mouse_pos := last_mouse_pos v |}.

Definition with_mouse (v : TreeView3D) (down : bool) (last : Z * Z)
  : TreeView3D :=
  {| camera_distance := camera_distance v; rotation_x := rotation_x v;
     rotation_y := rotation_y v; rotation_z := rotation_z v; scale := scale v;
     center_x := center_x v; center_y := center_y v;
     nodes := nodes v; connections := connections v;
     selected_node := selected_node v; hovered_node := hovered_node v;
     mouse_down := down; last_mouse_pos := last |}.

Definition with_rotation (v : TreeView3D) (rx ry : R) : TreeView3D :=
  {| camera_distance := camera_distance v; rotation_x := rx;
     rotation_y := ry; rotation_z := rotation_z v; scale := scale v;
     center_x := center_x v; center_y := center_y v;
     nodes := nodes v; connections := connections v;
     selected_node := selected_node v; hovered_node := hovered_node v;
     mouse_down := mouse_down v; last_mouse_pos := last_mouse_pos v |}.

Definition with_scene (v : TreeView3D) (ns : list (string * TreeNode3D))
  (cs : list (string * string)) : TreeView3D :=
  {| camera_distance := camera_distance v; rotation_x := rotation_x v;
     rotation_y := rotation_y v; rotation_z := rotation_z v; scale := scale v;
     center_x := center_x v; center_y := center_y v;
     nodes := ns; connections := cs;
     selected_node := selected_node v; hovered_node := hovered_node v;
     mouse_down := mouse_down v; last_mouse_pos := last_mouse_pos v |}.

(** ** Python's [sorted] *)

Definition Rleb (a b : R) : bool := if Rle_dec a b then true else false.

Section Sorting.
Context {A : Type} (key : A -> R).

(** A stable ascending sort: [a] goes before the first element whose key is
    not smaller, so among equal keys the input order is kept. *)
Fixpoint insert_by (a : A) (l : list A) : list A :=
  match l with
  | [] => [a]
  | b :: l' => if Rleb (key a) (key b) then a :: l else b :: insert_by a l'
  end.

Fixpoint sorted_by (l : list A) : list A :=
  match l with
  | [] => []
  | a :: l' => insert_by a (sorted_by l')
  end.

(** [sorted(l, key=key, reverse=True)]: CPython reverses the input, sorts
    it stably and reverses the result, so equal keys keep the input order. *)
Definition sorted_by_reverse (l : list A) : list A :=
  rev (sorted_by (rev l)).

End Sorting.

Definition depth_key (v : TreeView3D) (n : TreeNode3D) : R :=
  z n + camera_distance v.

(** The drawing order of [paintEvent] (back to front). *)
Definition render_order (v : TreeView3D) : list TreeNode3D :=
  sorted_by_reverse (depth_key v) (dict_values (nodes v)).

(** The order in which [_find_node_at_position] tests the nodes. *)
Definition hit_order (v : TreeView3D) : list TreeNode3D :=
  sorted_by (depth_key v) (dict_values (nodes v)).

(** ** [TreeView3D._find_node_at_position] *)

Definition node_hit (v : TreeView3D) (ex ey : R) (n : TreeNode3D)
  : outcome bool :=
  z_factor <- pydiv 800 (z n + camera_distance v + 800) ;;
  let w := width n * z_factor * scale v in
  let h := height n * z_factor * scale v in
  let rect_x := py_int (px n - w / 2) in
  let rect_y := py_int (py n - h / 2) in
  Ok (Rleb rect_x ex && Rleb ex (rect_x + w) &&
      Rleb rect_y ey && Rleb ey (rect_y + h)).

Fixpoint first_hit (v : TreeView3D) (ex ey : R) (l : list TreeNode3D)
  : outcome (option string) :=
  match l with
  | [] => Ok None
  | n :: l' =>
      b <- node_hit v ex ey n ;;
      if b then Ok (Some (node_id n)) else first_hit v ex ey l'
  end.

Definition find_node_at_position (v : TreeView3D) (ex ey : Z)
  : outcome (option string) :=
  first_hit v (IZR ex) (IZR ey) (hit_order v).

(** ** Pointer events *)

(** Truthiness of a Python string. *)
Definition py_truthy (s : string) : bool := negb (String.eqb s EmptyString).

Definition option_string_eqb (a b : option string) : bool :=
  match a, b with
  | Some s, Some t => String.eqb s t
  | None, None => true
  | _, _ => false
  end.

Definition mousePressEvent (v : TreeView3D) (ex ey : Z) : outcome TreeView3D :=
  let v1 := with_mouse v true (ex, ey) in
  selected <- find_node_at_position v1 ex ey ;;
  if negb (option_string_eqb selected (selected_node v1)) then
    let v2 := with_selection v1 selected (hovered_node v1) in
    match selected with
    | Some id =>
        if py_truthy id then
          match dict_get id (nodes v2) with
          | Some n =>
              Ok (with_nodes v2
                    (dict_set id (store_original_position (set_dragging n true))
                       (nodes v2)))
          | None => Ok v2
          end
        else Ok v2
    | None => Ok v2
    end
  else Ok v1.

Definition mouseReleaseEvent (v : TreeView3D) : TreeView3D :=
  let v1 := with_mouse v false (last_mouse_pos v) in
  with_nodes v1
    (map (fun kn => (fst kn, if dragging (snd kn)
                             then set_dragging (snd kn) false
                             else snd kn)) (nodes v1)).

(** The world offset [mouseMoveEvent] computes for a dragged node [n] from
    the pointer delta [(dx, dy)]. *)
Definition drag_world_offset (v : TreeView3D) (n : TreeNode3D) (dx dy : R)
  : outcome (R * R) :=
  z_factor <- pydiv 800 (z n + camera_distance v + 800) ;;
  sensitivity <- pydiv 2 (z_factor * scale v) ;;
  let cos_y := cos (- rotation_y v) in
  let sin_y := sin (- rotation_y v) in
  let world_dx := (dx * cos_y - dy * sin_y) * sensitivity in
  let world_dz := (dx * sin_y + dy * cos_y) * sensitivity in
  Ok (world_dx, world_dz).

(** The node [mouseMoveEvent] drags, if any. *)
Definition dragging_node (v : TreeView3D) : option (string * TreeNode3D) :=
  match selected_node v with
  | Some id =>
      if py_truthy id then
        match dict_get id (nodes v) with
        | Some n => if dragging n then Some (id, n) else None
        | None => None
        end
      else None
  | None => None
  end.

Definition mouseMoveEvent (v : TreeView3D) (ex ey : Z) : outcome TreeView3D :=
  if mouse_down v then
    let dx := IZR (ex - fst (last_mouse_pos v)) in
    let dy := IZR (ey - snd (last_mouse_pos v)) in
    v1 <- match dragging_node v with
          | Some (id, n) =>
              off <- drag_world_offset v n dx dy ;;
              Ok (with_nodes v
                    (dict_set id
                       (update_position_by_offset n (fst off) 0 (snd off))
                       (nodes v)))
          | None =>
              let sensitivity := 0.01 in
              Ok (with_rotation v (rotation_x v + dy * sensitivity)
                    (rotation_y v + dx * sensitivity))
          end ;;
    Ok (with_mouse v1 (mouse_down v1) (ex, ey))
  else
    hovered <- find_node_at_position v ex ey ;;
    if negb (option_string_eqb hovered (hovered_node v)) then
      Ok (with_selection v (selected_node v) hovered)
    else Ok v.

(** A sequence of pointer moves. *)
Fixpoint run_moves (v : TreeView3D) (ps : list (Z * Z)) : outcome TreeView3D :=
  match ps with
  | [] => Ok v
  | p :: ps' => v' <- mouseMoveEvent v (fst p) (snd p) ;; run_moves v' ps'
  end.

(** ** Traversals over the connection list *)

(** [[dest for src, dest in self.connections if src == node_id]] *)
Fixpoint children_of (nid : string) (conns : list (string * string))
  : list string :=
  match conns with
  | [] => []
  | (src, dest) :: cs =>
      if String.eqb src nid then dest :: children_of nid cs
      else children_of nid cs
  end.

(** The layout pass mutates the node map in place and its caller catches
    exceptions, so a run ends with a status and the node map as it is at
    that point; [Exhausted] models unbounded recursion (out of fuel). *)
Inductive status := Done | Raised (e : exn) | Exhausted.

Definition Nodes := list (string * TreeNode3D).

Definition lbind (r : status * Nodes) (k : Nodes -> status * Nodes)
  : status * Nodes :=
  match r with
  | (Done, ns) => k ns
  | other => other
  end.

Notation "ns <-- m ;;; k" := (lbind m (fun ns => k))
  (at level 61, m at next level, right associativity).

(** [self.nodes[k]]: [KeyError] when absent. *)
Definition lookup_node (k : string) (ns : Nodes)
  (f : TreeNode3D -> status * Nodes) : status * Nodes :=
  match dict_get k ns with
  | Some n => f n
  | None => (Raised KeyError, ns)
  end.

(** The loop of [_layout_level] over the children list; [rec] is the
    recursive call [self._layout_level(child_id, level + 1)]. *)
Fixpoint layout_children (rec : Nodes -> string -> status * Nodes)
  (nid : string) (level count i : nat) (cs : list string) (ns : Nodes)
  : status * Nodes :=
  match cs with
  | [] => (Done, ns)
  | child_id :: cs' =>
      lookup_node child_id ns (fun child =>
      lookup_node nid ns (fun parent =>
      let radius := 120 / (INR level + 1) in
      let angle := 2 * PI * INR i / INR count in
      let x' := x parent + radius * sin angle in
      let z' := z parent + radius * cos angle in
      let y' := y parent - 60 - INR level * 20 in
      let ns1 := dict_set child_id (set_position child x' y' z') ns in
      ns2 <-- rec ns1 child_id ;;;
      layout_children rec nid level count (S i) cs' ns2))
  end.

(** [TreeView3D._layout_level]; the parent is read through the node map at
    each iteration, as the Python [parent] object is the map's entry. *)
Fixpoint layout_level (fuel : nat) (conns : list (string * string))
  (ns : Nodes) (nid : string) (level : nat) : status * Nodes :=
  match fuel with
  | O => (Exhausted, ns)
  | S fuel' =>
      let children := children_of nid conns in
      match children with
      | [] => (Done, ns)
      | _ =>
          lookup_node nid ns (fun _ =>
          layout_children
            (fun ns' c => layout_level fuel' conns ns' c (S level))
            nid level (List.length children) 0 children ns)
      end
  end.

(** The key of the first node (in insertion order) whose parent is [None]. *)
Fixpoint find_root (ns : Nodes) : option string :=
  match ns with
  | [] => None
  | (k, n) :: ns' =>
      match parent_id n with None => Some k | Some _ => find_root ns' end
  end.

(** [TreeView3D._layout_tree] *)
Definition layout_tree (fuel : nat) (conns : list (string * string))
  (ns : Nodes) : status * Nodes :=
  match find_root ns with
  | None => (Done, ns)
  | Some root_id =>
      if py_truthy root_id then
        lookup_node root_id ns (fun root_node =>
        let ns1 := dict_set root_id (set_position root_node 0 0 0) ns in
        layout_level fuel conns ns1 root_id 0)
      else (Done, ns)
  end.

(** Python's [set.add] on a set of ids. *)
Definition set_add (s : string) (hs : list string) : list string :=
  if existsb (String.eqb s) hs then hs else hs ++ [s].

Fixpoint add_children_loop (rec : list string -> string -> outcome (list string))
  (nid : string) (conns : list (string * string)) (hs : list string)
  : outcome (list string) :=
  match conns with
  | [] => Ok hs
  | (src, dest) :: cs =>
      if String.eqb src nid then
        hs2 <- rec (set_add dest hs) dest ;;
        add_children_loop rec nid cs hs2
      else add_children_loop rec nid cs hs
  end.

(** [TreeView3D._add_children_recursive] *)
Fixpoint add_children_recursive (fuel : nat) (conns : list (string * string))
  (nid : string) (hs : list string) : outcome (list string) :=
  match fuel with
  | O => OutOfFuel
  | S fuel' =>
      add_children_loop (fun hs' d => add_children_recursive fuel' conns d hs')
        nid conns hs
  end.

(** ** Loading a scene *)

(** [str(n)] for a natural number. *)
Fixpoint digits_of (fuel n : nat) (acc : string) : string :=
  match fuel with
  | O => acc
  | S f =>
      let acc' := String (Ascii.ascii_of_nat (48 + Nat.modulo n 10)) acc in
      if Nat.ltb n 10 then acc' else digits_of f (Nat.div n 10) acc'
  end.

Definition string_of_nat (n : nat) : string := digits_of (S n) n EmptyString.

(** The node map and connection list under construction, and the number
    of [TreeNode3D] objects created so far (which indexes the random draws
    [draw k] of the [k]-th one). *)
Record Build := mkBuild {
  b_nodes : Nodes;
  b_conns : list (string * string);
  b_made : nat
}.

Section Load.
Variable draw : nat -> Cosmetic.

(** [node = TreeNode3D(t, id, p)], then [self.nodes[id] = node]. *)
Definition add_node (b : Build) (t id : string) (p : option string)
  (pos : option (R * R * R)) : Build :=
  let n0 := new_TreeNode3D (draw (b_made b)) t id p in
  let n := match pos with
           | Some (x', y', z') => set_position n0 x' y' z'
           | None => n0
           end in
  mkBuild (dict_set id n (b_nodes b)) (b_conns b) (S (b_made b)).

(** [self.connections.append((src, dest))] *)
Definition connect (b : Build) (src dest : string) : Build :=
  mkBuild (b_nodes b) (b_conns b ++ [(src, dest)]) (b_made b).

(** [for i, a in enumerate(l): ...] threading the build state. *)
Fixpoint for_enum {A} (body : Build -> nat -> A -> outcome Build)
  (i : nat) (l : list A) (b : Build) : outcome Build :=
  match l with
  | [] => Ok b
  | a :: l' => b' <- body b i a ;; for_enum body (S i) l' b'
  end.

(** [self.nodes[k]] *)
Definition get_node (b : Build) (k : string) : outcome TreeNode3D :=
  match dict_get k (b_nodes b) with
  | Some n => Ok n
  | None => Err KeyError
  end.

Definition ring_angle (i count : nat) : R := 2 * PI * INR i / INR count.

(** The children of [parent_key] placed on a ring of radius [radius],
    [drop] below the parent, as in the second-level loops of
    [create_demo_tree]. *)
Definition demo_ring (prefix parent_key : string) (radius drop : R)
  (titles : list string) (b : Build) : outcome Build :=
  for_enum (fun b i t =>
    parent <- get_node b parent_key ;;
    let node_id := (prefix ++ string_of_nat i)%string in
    let angle := ring_angle i (List.length titles) in
    let x' := x parent + radius * sin angle in
    let z' := z parent + radius * cos angle in
    let y' := y parent - drop in
    Ok (connect (add_node b t node_id (Some parent_key) (Some (x', y', z')))
          parent_key node_id)) O titles b.

(** [TreeView3D.create_demo_tree] *)
Definition create_demo_tree (v : TreeView3D) : outcome TreeView3D :=
  let b0 := mkBuild [] [] O in
  let b1 := add_node b0 "Root" "root" None (Some (0, 0, 0)) in
  let categories := ["Documents"; "Projects"; "Settings"]%string in
  b2 <- for_enum (fun b i category =>
          let angle := ring_angle i (List.length categories) in
          let node_id := ("cat_" ++ string_of_nat i)%string in
          let radius := 120 in
          Ok (connect (add_node b category node_id (Some "root"%string)
                         (Some (radius * sin angle, -70, radius * cos angle)))
                "root" node_id)) O categories b1 ;;
  b3 <- demo_ring "doc_" "cat_0" 80 60
          ["Document 1"; "Document 2"; "Document 3"]%string b2 ;;
  let projects := ["Project 1"; "Project 2"]%string in
  b4 <- for_enum (fun b i project =>
          parent <- get_node b "cat_1" ;;
          let node_id := ("proj_" ++ string_of_nat i)%string in
          let angle := ring_angle i (List.length projects) in
          let radius := 80 in
          let b' := connect (add_node b project node_id (Some "cat_1"%string)
                      (Some (x parent + radius * sin angle, y parent - 60,
                             z parent + radius * cos angle))) "cat_1" node_id in
          node <- get_node b' node_id ;;
          let items := map (fun j => ("Item " ++ string_of_nat (S j))%string)
                         (seq O 3%nat) in
          for_enum (fun b j item =>
            let item_angle := ring_angle j (List.length items) in
            let item_id := ("item_" ++ string_of_nat i ++ "_"
                            ++ string_of_nat j)%string in
            let item_radius := 50 in
            let ix := x node + item_radius * sin item_angle in
            let iz := z node + item_radius * cos item_angle in
            let iy := y node - 40 in
            Ok (connect (add_node b item item_id (Some node_id)
                           (Some (ix, iy, iz))) node_id item_id))
            O items b') O projects b3 ;;
  b5 <- demo_ring "set_" "cat_2" 80 60
          ["User Settings"; "System Settings"]%string b4 ;;
  Ok (with_scene v (b_nodes b5) (b_conns b5)).

(** A Python value stored in the nested dictionary given to
    [create_tree_from_data]: a dict (its items in order) or anything else. *)
Set Warnings "-register-all".
Inductive PyValue :=
| VDict (items : list (string * PyValue))
| VOther.

(** [TreeView3D.create_tree_from_data(data, parent_id, level)] *)
Fixpoint create_tree_from_data (data : PyValue) (parent_id : option string)
  (level : nat) (b : Build) {struct data} : Build :=
  match data with
  | VOther => b
  | VDict items =>
      (fix go (i : nat) (es : list (string * PyValue)) (b : Build) : Build :=
         match es with
         | [] => b
         | (key, value) :: es' =>
             let node_id := ("data_" ++ string_of_nat level ++ "_"
                             ++ string_of_nat i)%string in
             let b1 := add_node b key node_id parent_id
                         (Some (INR i * 50, INR level * -100, 0)) in
             let b2 := match parent_id with
                       | Some p => if py_truthy p then connect b1 p node_id
                                   else b1
                       | None => b1
                       end in
             let b3 := match value with
                       | VDict _ =>
                           create_tree_from_data value (Some node_id) (S level) b2
                       | VOther => b2
                       end in
             go (S i) es' b3
         end) O items b
  end.


(** The part of the host's tree model that [load_tree_from_model] reads:
    a falsy model; a model without [treeStructure]; or one whose
    [treeStructure] has (or lacks) a [childList] of top-level nodes, each
    with the [Title] its data gives (if any) and its own [childList] (if
    any) of children, each with the [Title] its data gives (if any). *)
Record ModelNode := mkModelNode {
  m_title : option string;
  m_children : option (list (option string))
}.

Inductive TreeModel :=
| ModelFalsy
| ModelNoStructure
| ModelStructure (child_list : option (list ModelNode)).

(** The dictionary [load_tree_from_model] builds when the model has no
    [treeStructure]. *)
Definition demo_categories : PyValue :=
  VDict [("Documents", VDict [("Document 1", VDict []); ("Document 2", VDict [])]);
         ("Projects", VDict [("Project 1", VDict [("Task 1", VDict []);
                                                 ("Task 2", VDict [])]);
                             ("Project 2", VDict [])]);
         ("Settings", VDict [("User Settings", VDict []);
                             ("System Settings", VDict [])])]%string.

(** [categories[title][child_title] = {}] *)
Definition set_category_child (cats : list (string * PyValue))
  (t ct : string) : list (string * PyValue) :=
  match dict_get t cats with
  | Some (VDict sub) => dict_set t (VDict (dict_set ct (VDict []) sub)) cats
  | _ => cats
  end.

(** The loop over [model.treeStructure.childList]: the build state and
    the [categories] dictionary. *)
Definition load_structure (child_list : list ModelNode) (b : Build)
  : Build * list (string * PyValue) :=
  let step (acc : Build * list (string * PyValue) * nat) (node : ModelNode) :=
    let '(b, cats, i) := acc in
    let t := match m_title node with
             | Some t => t
             | None => ("Node " ++ string_of_nat i)%string
             end in
    let node_id := ("node_" ++ string_of_nat i)%string in
    let cats1 := dict_set t (VDict []) cats in
    let b1 := connect (add_node b t node_id (Some "root"%string) None)
                "root" node_id in
    let child_step (acc' : Build * list (string * PyValue) * nat)
                   (child : option string) :=
      let '(b, cats, j) := acc' in
      let ct := match child with
                | Some ct => ct
                | None => ("Child " ++ string_of_nat j)%string
                end in
      let child_node_id := (node_id ++ "_" ++ string_of_nat j)%string in
      (connect (add_node b ct child_node_id (Some node_id) None)
         node_id child_node_id, set_category_child cats t ct, S j) in
    let '(b2, cats2, _) :=
      match m_children node with
      | Some children => fold_left child_step children (b1, cats1, O)
      | None => (b1, cats1, O)
      end in
    (b2, cats2, S i) in
  let '(b', cats, _) := fold_left step child_list (b, [], O) in
  (b', cats).

(** [TreeView3D.load_tree_from_model(model)]: the new view and the returned
    boolean.  [fuel] bounds the depth of the layout recursion (Python's
    recursion limit, whose [RecursionError] the [except] clause catches). *)
Definition load_tree_from_model (fuel : nat) (model : TreeModel)
  (v : TreeView3D) : TreeView3D * bool :=
  match model with
  | ModelFalsy => (v, false)
  | _ =>
      let b0 := mkBuild [] [] O in
      let b1 := add_node b0 "Root" "root" None (Some (0, 0, 0)) in
      let b2 :=
        match model with
        | ModelStructure cl =>
            let '(b', cats) :=
              match cl with
              | Some child_list => load_structure child_list b1
              | None => (b1, [])
              end in
            if Nat.leb (List.length (b_nodes b')) 1
            then create_tree_from_data (VDict cats) (Some "root"%string) 1 b'
            else b'
        | _ => create_tree_from_data demo_categories (Some "root"%string) 1 b1
        end in
      let '(st, ns) := layout_tree fuel (b_conns b2) (b_nodes b2) in
      (with_scene v ns (b_conns b2),
       match st with Done => true | _ => false end)
  end.

End Load.

(** ** Further parts of [TreeView3D] and of [ThreeDViewWidget] *)

(** The camera fields, assigned together. *)
Definition with_camera (v : TreeView3D) (cd rx ry rz sc : R) : TreeView3D :=
  {| camera_distance := cd; rotation_x := rx;
     rotation_y := ry; rotation_z := rz; scale := sc;
     center_x := center_x v; center_y := center_y v;
     nodes := nodes v; connections := connections v;
     selected_node := selected_node v; hovered_node := hovered_node v;
     mouse_down := mouse_down v; last_mouse_pos := last_mouse_pos v |}.

(** [TreeView3D.wheelEvent], with [delta = event.angleDelta().y()]. *)
Definition wheelEvent (v : TreeView3D) (delta : Z) : TreeView3D :=
  let zoom_factor := 1 + IZR delta / 1000 in
  let s := scale v * zoom_factor in
  with_camera v (camera_distance v) (rotation_x v) (rotation_y v) (rotation_z v)
    (Rmax 0.1 (Rmin 3 s)).

(** [ThreeDViewWidget.update_zoom], with the zoom slider's value. *)
Definition update_zoom (v : TreeView3D) (zoom_value : Z) : TreeView3D :=
  with_camera v (camera_distance v) (rotation_x v) (rotation_y v) (rotation_z v)
    (IZR zoom_value / 100).

(** [ThreeDViewWidget.update_rotation], with the X and Y sliders' values. *)
Definition update_rotation (v : TreeView3D) (x_value y_value : Z) : TreeView3D :=
  with_camera v (camera_distance v) (IZR x_value / 100 * PI) (IZR y_value / 100 * PI)
    (rotation_z v) (scale v).

(** [ThreeDViewWidget.reset_view] on the tree view.  Resetting the sliders
    first runs [update_rotation] and [update_zoom] through their
    [valueChanged] signals, but the assignments that follow overwrite every
    field those set, so the resulting view is the one below. *)
Definition reset_view (v : TreeView3D) : TreeView3D :=
  with_camera v 500 0 0 0 1.

(** The opacity [paintEvent] draws a node with. *)
Definition node_opacity (v : TreeView3D) (n : TreeNode3D) : outcome R :=
  z_factor <- pydiv 800 (z n + camera_distance v + 800) ;;
  Ok (Rmin 255 (Rmax 50 (py_int (255 * z_factor)))).

(** The [highlighted_nodes] set of [paintEvent]: the selected node and what
    [_add_children_recursive] adds below it. *)
Definition highlighted_nodes (fuel : nat) (v : TreeView3D) : outcome (list string) :=
  match selected_node v with
  | Some s =>
      if py_truthy s then add_children_recursive fuel (connections v) s (set_add s [])
      else Ok []
  | None => Ok []
  end.

(** [ThreeDViewWidget.show_demo]: the demo tree, then [reset_view]. *)
Definition show_demo (draw : nat -> Cosmetic) (v : TreeView3D) : outcome TreeView3D :=
  v1 <- create_demo_tree draw v ;;
  Ok (reset_view v1).

(** [ThreeDViewWidget.load_tree]: [reset_view] after a successful load, the
    demo otherwise.  [draw] and [draw'] are the random draws of the two
    builds.  [load_tree_from_model] catches its own exceptions and
    [create_demo_tree] raises none (see [create_demo_tree_root]), so the
    [except] clause, which would call [show_demo] again, is never entered. *)
Definition load_tree (draw draw' : nat -> Cosmetic) (fuel : nat) (model : TreeModel)
  (v : TreeView3D) : outcome TreeView3D :=
  let '(v1, ok) := load_tree_from_model draw fuel model v in
  if ok then Ok (reset_view v1) else show_demo draw' v1.

(** ** Definitions following the spec's words, for comparison *)

(** The spec's camera pipeline: rotate about X, then Y, then Z, each applied
    to the already-rotated point, then the perspective division with focal
    length 1000 and the behind-camera clamp on the depth after X and Y. *)
Definition spec_rotate_x (a : R) (p : R * R * R) : R * R * R :=
  let '(x0, y0, z0) := p in
  (x0, y0 * cos a - z0 * sin a, y0 * sin a + z0 * cos a).

Definition spec_rotate_y (a : R) (p : R * R * R) : R * R * R :=
  let '(x0, y0, z0) := p in
  (x0 * cos a + z0 * sin a, y0, - x0 * sin a + z0 * cos a).

Definition spec_rotate_z (a : R) (p : R * R * R) : R * R * R :=
  let '(x0, y0, z0) := p in
  (x0 * cos a - y0 * sin a, x0 * sin a + y0 * cos a, z0).

Definition spec_project (rx ry rz zoom cd cx cy : R) (p : R * R * R) : R * R :=
  let pxy := spec_rotate_y ry (spec_rotate_x rx p) in
  let zd := snd pxy in
  let '(x2, y2, _) := spec_rotate_z rz pxy in
  if Rle_dec (zd + cd) 0 then (cx, cy)
  else let s := 1000 / (zd + cd) * zoom in (x2 * s + cx, y2 * s + cy).


(** ** Concrete scenes *)

(** A node at the world origin, as [paintEvent] projects it under the
    reset camera ([rotation_x = rotation_y = rotation_z = 0], [scale = 1],
    [camera_distance = 700]) in a 600x400 widget: at the center (300, 200). *)
Definition sample_node (id : string) (p : option string) : TreeNode3D :=
  {| title := id; node_id := id; parent_id := p;
     x := 0; y := 0; z := 0; px := 300; py := 200;
     color := (200%Z, 200%Z, 200%Z);
     width := 60; height := 30; depth := 20;
     hovered := false; dragging := false;
     orig_x := 0; orig_y := 0; orig_z := 0 |}.

Definition sample_view (ns : Nodes) (sel : option string) : TreeView3D :=
  {| camera_distance := 700; rotation_x := 0; rotation_y := 0;
     rotation_z := 0; scale := 1; center_x := 300; center_y := 200;
     nodes := ns; connections := [];
     selected_node := sel; hovered_node := None;
     mouse_down := false; last_mouse_pos := (0%Z, 0%Z) |}.

(** The scene with only the root node, nothing selected. *)
Definition root_scene : TreeView3D :=
  sample_view [("root"%string, sample_node "root" None)] None.

(** A drag in progress on the root node of [root_scene]: the pointer went
    down at (300, 200) on it. *)
Definition dragging_scene : TreeView3D :=
  {| camera_distance := 700; rotation_x := 0; rotation_y := 0;
     rotation_z := 0; scale := 1; center_x := 300; center_y := 200;
     nodes := [("root"%string, set_dragging (sample_node "root" None) true)];
     connections := [];
     selected_node := Some "root"%string; hovered_node := None;
     mouse_down := true; last_mouse_pos := (300%Z, 200%Z) |}.

(** The drag anchor of a dragging node keeps its height: the invariant the
    event handlers maintain (a press captures the live position, a drag
    move writes [orig_y + 0]). *)
Definition drag_anchor_inv (v : TreeView3D) : Prop :=
  forall k n, In (k, n) (nodes v) -> dragging n = true -> y n = orig_y n.

(** A drag in progress on node [id] whose anchor is [(ax, ay, az)], under
    the camera of [cam]. *)
Definition drag_state (v : TreeView3D) (id : string) (ax ay az : R)
  (cam : TreeView3D) : Prop :=
  mouse_down v = true /\ selected_node v = Some id /\ py_truthy id = true /\
  rotation_y v = rotation_y cam /\ scale v = scale cam /\
  camera_distance v = camera_distance cam /\
  exists n, dict_get id (nodes v) = Some n /\ dragging n = true /\
            orig_x n = ax /\ orig_y n = ay /\ orig_z n = az.

(** Two nodes at the same depth. *)
Definition tie_scene : TreeView3D :=
  sample_view [("a"%string, sample_node "a" (Some "root"%string));
               ("b"%string, sample_node "b" (Some "root"%string))] None.

Definition Reqb (a b : R) : bool := if Req_dec_T a b then true else false.

(** One fixed outcome of the random draws of [TreeNode3D.__init__]. *)
Definition draw0 : nat -> Cosmetic :=
  fun _ => mkCosmetic 0 0 0 (0%Z, 0%Z, 0%Z) 60 30 20.

(** The number of nodes with no null parent, and of leaves (keys that are
    the source of no connection). *)
Definition null_parent_count (ns : Nodes) : nat :=
  List.length (filter (fun n => match parent_id n with None => true | Some _ => false end)
                 (dict_values ns)).

Definition leaf_count (ns : Nodes) (conns : list (string * string)) : nat :=
  List.length (filter (fun k => match children_of k conns with [] => true | _ => false end)
                 (map fst ns)).

(** Induction over nested dictionaries. *)
Fixpoint PyValue_ind' (P : PyValue -> Prop) (HO : P VOther)
  (HD : forall items, Forall (fun kv => P (snd kv)) items -> P (VDict items))
  (v : PyValue) : P v :=
  match v with
  | VOther => HO
  | VDict items =>
      HD items
        ((fix go (l : list (string * PyValue)) : Forall (fun kv => P (snd kv)) l :=
            match l with
            | [] => Forall_nil _
            | kv :: l' => Forall_cons kv (PyValue_ind' P HO HD (snd kv)) (go l')
            end) items)
  end.

(** The node map after the import path of [load_tree_from_model]: the
    root, then [create_tree_from_data(data, "root", 1)]. *)
Definition import_build (draw : nat -> Cosmetic) (data : PyValue) : Build :=
  create_tree_from_data draw data (Some "root"%string) 1
    (add_node draw (mkBuild [] [] O) "Root" "root" None (Some (0, 0, 0))).

(** The shape of the node map built by the import path: the root first,
    with a null parent; every other node with a non-null parent id that is
    a key of the map. *)
Definition import_inv (ns : Nodes) : Prop :=
  exists r rest,
    ns = ("root"%string, r) :: rest /\ parent_id r = None /\
    Forall (fun kn => fst kn <> "root"%string /\
                      exists p, parent_id (snd kn) = Some p /\ dict_mem p ns = true)
      rest.

(** Two nodes at different depths: [b] is 50 units farther than [a]. *)
Definition depth_scene : TreeView3D :=
  sample_view [("a"%string, sample_node "a" (Some "root"%string));
               ("b"%string, set_position (sample_node "b" (Some "root"%string)) 0 0 50)]
    None.

(** Two connections forming a cycle between [a] and [b]. *)
Definition cycle_conns : list (string * string) := [("a", "b"); ("b", "a")]%string.

(** A chain root -> a -> b, and a ranking of its nodes by depth. *)
Definition chain_conns : list (string * string) := [("root", "a"); ("a", "b")]%string.

Definition chain_rank (s : string) : nat :=
  if String.eqb s "root" then O else if String.eqb s "a" then 1%nat else 2%nat.

(** [reach conns k q d]: following [d] connections from [k] leads to [q]. *)
Inductive reach (conns : list (string * string)) : string -> string -> nat -> Prop :=
| reach_here k : reach conns k k O
| reach_next k c q d : In (k, c) conns -> reach conns c q d -> reach conns k q (S d).

(** A node with its position forgotten, and a node map with the positions
    forgotten: the layout pass changes nothing else. *)
Definition skeleton (n : TreeNode3D) : TreeNode3D := set_position n 0 0 0.

Definition skel_map (ns : Nodes) : list (string * TreeNode3D) :=
  map (fun kn => (fst kn, skeleton (snd kn))) ns.

Definition moved (ns ns' : Nodes) : Prop := skel_map ns = skel_map ns'.

(** Child [c] of [p] placed as the [i]-th of [n] children by
    [_layout_level(p, lvl)], relative to the position of [p] in [ns]. *)
Definition placed_at (ns : Nodes) (lvl i n : nat) (p c : string) : Prop :=
  exists np nc, dict_get p ns = Some np /\ dict_get c ns = Some nc /\
    x nc = x np + 120 / (INR lvl + 1) * sin (2 * PI * INR i / INR n) /\
    y nc = y np - 60 - INR lvl * 20 /\
    z nc = z np + 120 / (INR lvl + 1) * cos (2 * PI * INR i / INR n).

(** The nodes of the chain root -> a -> b. *)
Definition chain_nodes : Nodes :=
  [("root"%string, sample_node "root" None);
   ("a"%string, sample_node "a" (Some "root"%string));
   ("b"%string, sample_node "b" (Some "a"%string))].

(** The number of underscores in an id: the depth of the ids
    [load_tree_from_model] gives the nodes of a [treeStructure]
    ([root], [node_i], [node_i_j]). *)
Fixpoint underscore_count (s : string) : nat :=
  match s with
  | EmptyString => O
  | String c s' => (if Ascii.eqb c (Ascii.ascii_of_nat 95) then 1 else 0) + underscore_count s'
  end.

(** The shape of the build state while a [treeStructure] is loaded: the
    root first, with a null parent, and every connection between two keys
    of the map, from an id with fewer underscores to one with at most two. *)
Definition structure_inv (b : Build) : Prop :=
  (exists r0 rest, b_nodes b = ("root"%string, r0) :: rest /\ parent_id r0 = None) /\
  forall s d, In (s, d) (b_conns b) ->
    dict_mem s (b_nodes b) = true /\ dict_mem d (b_nodes b) = true /\
    (underscore_count s < underscore_count d <= 2)%nat.

(** * Proofs *)

(** ** Projection *)

(** C1: [project_point] rotates about X, then Y, then Z (each on the
    already-rotated coordinates), returns exactly the viewport center when
    the depth after the X and Y rotations plus the camera distance is at
    most 0, and otherwise scales by [1000 / (z' + camera_distance) * scale]
    and adds the center.  It is pure: its result depends only on the point
    and the camera fields, not on the rest of the view state. *)
Theorem project_point_spec :
  forall (v : TreeView3D) (x0 y0 z0 : R),
    project_point v x0 y0 z0 =
      spec_project (rotation_x v) (rotation_y v) (rotation_z v) (scale v)
        (camera_distance v) (center_x v) (center_y v) (x0, y0, z0) /\
    forall v' : TreeView3D,
      rotation_x v' = rotation_x v -> rotation_y v' = rotation_y v ->
      rotation_z v' = rotation_z v -> scale v' = scale v ->
      camera_distance v' = camera_distance v ->
      center_x v' = center_x v -> center_y v' = center_y v ->
      project_point v' x0 y0 z0 = project_point v x0 y0 z0.
Proof.
  intros v x0 y0 z0; split.
  - unfold project_point, spec_project; simpl.
    destruct (Rle_dec _ 0); reflexivity.
  - intros v' Hx Hy Hz Hs Hd Hcx Hcy.
    unfold project_point; rewrite Hx, Hy, Hz, Hs, Hd, Hcx, Hcy.
    reflexivity.
Qed.

(** The clamp, as the spec's property list states it. *)
Lemma project_point_behind_camera :
  forall (v : TreeView3D) (x0 y0 z0 : R),
    snd (spec_rotate_y (rotation_y v) (spec_rotate_x (rotation_x v) (x0, y0, z0)))
      + camera_distance v <= 0 ->
    project_point v x0 y0 z0 = (center_x v, center_y v).
Proof.
  intros v x0 y0 z0 H. unfold project_point. simpl in H.
  destruct (Rle_dec _ 0) as [_ | Hn]; [reflexivity | contradiction].
Qed.

(** ** Helpers for concrete evaluation *)

Lemma py_int_of : forall (r : R) (n : Z),
  0 <= r -> IZR n <= r < IZR n + 1 -> py_int r = IZR n.
Proof.
  intros r n H0 [H1 H2]. unfold py_int.
  destruct (Rle_dec 0 r) as [_ | Hn]; [| contradiction].
  f_equal. symmetry. apply Int_part_spec. lra.
Qed.

Lemma Rleb_true : forall a b, a <= b -> Rleb a b = true.
Proof. intros a b H; unfold Rleb; destruct (Rle_dec a b); [reflexivity | contradiction]. Qed.

Lemma Rleb_false : forall a b, b < a -> Rleb a b = false.
Proof. intros a b H; unfold Rleb; destruct (Rle_dec a b); [lra | reflexivity]. Qed.

Lemma pydiv_ok : forall a b, b <> 0 -> pydiv a b = Ok (a / b).
Proof. intros a b H; unfold pydiv; destruct (Req_dec_T b 0); [contradiction | reflexivity]. Qed.

(** A node at depth 0 drawn at (300, 200) with the sample node's size has,
    under the reset camera, the projected rectangle [284 <= x <= 316],
    [192 <= y <= 208], and (300, 200) is inside it. *)
Lemma sample_node_hit : forall v n,
  camera_distance v = 700 -> scale v = 1 -> z n = 0 -> px n = 300 ->
  py n = 200 -> width n = 60 -> height n = 30 ->
  node_hit v 300 200 n = Ok true.
Proof.
  intros v n Hd Hs Hz Hx Hy Hw Hh. unfold node_hit.
  rewrite Hd, Hs, Hz, Hx, Hy, Hw, Hh.
  rewrite pydiv_ok by lra. simpl.
  replace (60 * (800 / (0 + 700 + 800)) * 1) with 32 by field.
  replace (30 * (800 / (0 + 700 + 800)) * 1) with 16 by field.
  rewrite (py_int_of (300 - 32 / 2) 284) by lra.
  rewrite (py_int_of (200 - 16 / 2) 192) by lra.
  rewrite !Rleb_true by lra. reflexivity.
Qed.

(** ** Dictionary lemmas *)

Lemma dict_get_set_same : forall {V} k (val : V) d,
  dict_get k (dict_set k val d) = Some val.
Proof.
  intros V k val d; induction d as [| [k' v'] d IH]; simpl.
  - rewrite String.eqb_refl; reflexivity.
  - destruct (String.eqb k k') eqn:E; simpl.
    + apply String.eqb_eq in E; subst; rewrite String.eqb_refl; reflexivity.
    + rewrite E; exact IH.
Qed.

Lemma dict_get_set_other : forall {V} k k' (val : V) d,
  k' <> k -> dict_get k' (dict_set k val d) = dict_get k' d.
Proof.
  intros V k k' val d Hne; induction d as [| [k0 v0] d IH]; simpl.
  - destruct (String.eqb k' k) eqn:E; [apply String.eqb_eq in E; congruence | reflexivity].
  - destruct (String.eqb k k0) eqn:E; simpl.
    + apply String.eqb_eq in E; subst.
      destruct (String.eqb k' k0) eqn:E'; [apply String.eqb_eq in E'; congruence | reflexivity].
    + destruct (String.eqb k' k0); [reflexivity | exact IH].
Qed.

Lemma in_dict_set : forall {V} k (val : V) d k' v',
  In (k', v') (dict_set k val d) -> (k' = k /\ v' = val) \/ In (k', v') d.
Proof.
  intros V k val d; induction d as [| [k0 v0] d IH]; simpl; intros k' v' H.
  - destruct H as [H | []]; inversion H; subst; left; split; reflexivity.
  - destruct (String.eqb k k0) eqn:E.
    + apply String.eqb_eq in E; subst.
      destruct H as [H | H]; [inversion H; subst; left; split; reflexivity | right; right; exact H].
    + destruct H as [H | H]; [right; left; exact H |].
      destruct (IH k' v' H) as [H' | H']; [left; exact H' | right; right; exact H'].
Qed.

Lemma dict_get_in : forall {V} k (val : V) d,
  dict_get k d = Some val -> In (k, val) d.
Proof.
  intros V k val d; induction d as [| [k0 v0] d IH]; simpl; intros H.
  - discriminate.
  - destruct (String.eqb k k0) eqn:E.
    + apply String.eqb_eq in E; subst; inversion H; subst; left; reflexivity.
    + right; exact (IH H).
Qed.

Lemma keys_dict_set : forall {V} k (val : V) d,
  map fst (dict_set k val d) =
    if existsb (String.eqb k) (map fst d) then map fst d else map fst d ++ [k].
Proof.
  intros V k val d; induction d as [| [k0 v0] d IH]; simpl.
  - reflexivity.
  - destruct (String.eqb k k0) eqn:E; simpl.
    + apply String.eqb_eq in E; subst; reflexivity.
    + rewrite IH. destruct (existsb (String.eqb k) (map fst d)); reflexivity.
Qed.

(** ** Pointer press *)

(** C2 (fails on the code): the press handler only arms a drag when the
    hit node differs from the selected one.  In [root_scene] a first press
    at the root's projected center (300, 200) selects the root and arms its
    drag; after the release, a second press at the same point hits the root
    again, but as it is already the selected node the handler neither sets
    [dragging] nor recaptures the drag anchor, and the following pointer
    move rotates the camera instead of dragging the node. *)
Theorem press_on_selected_node_not_rearmed :
  exists v1 v3 v4,
    mousePressEvent root_scene 300 200 = Ok v1 /\
    option_map dragging (dict_get "root" (nodes v1)) = Some true /\
    selected_node v1 = Some "root"%string /\
    mousePressEvent (mouseReleaseEvent v1) 300 200 = Ok v3 /\
    selected_node v3 = Some "root"%string /\
    option_map dragging (dict_get "root" (nodes v3)) = Some false /\
    mouseMoveEvent v3 310 200 = Ok v4 /\
    rotation_y v4 = 0 + IZR (310 - 300) * 0.01 /\
    dict_get "root" (nodes v4) = dict_get "root" (nodes v3).
Proof.
  do 3 eexists.
  split.
  { unfold mousePressEvent, find_node_at_position, hit_order. simpl.
    rewrite sample_node_hit by reflexivity. simpl. reflexivity. }
  split; [reflexivity |]. split; [reflexivity |].
  split.
  { unfold mousePressEvent, find_node_at_position, hit_order. simpl.
    unfold store_original_position, set_dragging. simpl.
    rewrite sample_node_hit by reflexivity. simpl. reflexivity. }
  split; [reflexivity |]. split; [reflexivity |].
  split; [reflexivity |]. split; reflexivity.
Qed.

(** ** Pointer move while dragging *)

Lemma drag_world_offset_ok : forall v n dx dy,
  z n + camera_distance v + 800 <> 0 -> scale v <> 0 ->
  drag_world_offset v n dx dy =
    let z_factor := 800 / (z n + camera_distance v + 800) in
    let s := 2 / (z_factor * scale v) in
    Ok ((dx * cos (- rotation_y v) - dy * sin (- rotation_y v)) * s,
        (dx * sin (- rotation_y v) + dy * cos (- rotation_y v)) * s).
Proof.
  intros v n dx dy Hd Hs. unfold drag_world_offset.
  rewrite pydiv_ok by exact Hd. simpl.
  rewrite pydiv_ok; [reflexivity |].
  apply Rmult_integral_contrapositive_currified; [| exact Hs].
  unfold Rdiv; apply Rmult_integral_contrapositive_currified;
    [lra | apply Rinv_neq_0_compat; exact Hd].
Qed.

Lemma dragging_node_some : forall v id n,
  selected_node v = Some id -> py_truthy id = true ->
  dict_get id (nodes v) = Some n -> dragging n = true ->
  dragging_node v = Some (id, n).
Proof.
  intros v id n Hs Ht Hg Hd. unfold dragging_node.
  rewrite Hs, Ht, Hg, Hd. reflexivity.
Qed.

(** C3: a pointer move while node [id] is dragging applies the world offset
    [(world_dx, 0, world_dz)] with [world_dx = (dx cos(-ry) - dy sin(-ry)) s],
    [world_dz = (dx sin(-ry) + dy cos(-ry)) s], [s = 2 / (z_factor * scale)],
    [z_factor = 800 / (z + camera_distance + 800)], to the drag anchor (not to
    the live position).  With [ry = 0] and [dy = 0] the offset has no Z part,
    and the node's height is unchanged (the anchor invariant holds before and
    after).  The hypotheses on the denominators are those under which the
    claim's formula is defined (Python raises [ZeroDivisionError] otherwise). *)
Theorem drag_move_offset :
  forall (v : TreeView3D) (ex ey : Z) (id : string) (n : TreeNode3D),
    mouse_down v = true -> selected_node v = Some id -> py_truthy id = true ->
    dict_get id (nodes v) = Some n -> dragging n = true ->
    z n + camera_distance v + 800 <> 0 -> scale v <> 0 ->
    drag_anchor_inv v ->
    let dx := IZR (ex - fst (last_mouse_pos v)) in
    let dy := IZR (ey - snd (last_mouse_pos v)) in
    let z_factor := 800 / (z n + camera_distance v + 800) in
    let s := 2 / (z_factor * scale v) in
    let world_dx := (dx * cos (- rotation_y v) - dy * sin (- rotation_y v)) * s in
    let world_dz := (dx * sin (- rotation_y v) + dy * cos (- rotation_y v)) * s in
    exists v' n',
      mouseMoveEvent v ex ey = Ok v' /\
      dict_get id (nodes v') = Some n' /\
      n' = set_position n (orig_x n + world_dx) (orig_y n + 0) (orig_z n + world_dz) /\
      y n' = y n /\
      drag_anchor_inv v' /\
      (rotation_y v = 0 -> dy = 0 -> world_dz = 0 /\ z n' = orig_z n).
Proof.
  intros v ex ey id n Hmd Hsel Ht Hg Hdr Hd Hs Hinv dx dy z_factor s world_dx world_dz.
  assert (Hy : y n = orig_y n) by exact (Hinv id n (dict_get_in _ _ _ Hg) Hdr).
  eexists; eexists; split; [| split; [| split; [reflexivity |]]].
  - unfold mouseMoveEvent. rewrite Hmd.
    rewrite (dragging_node_some v id n Hsel Ht Hg Hdr).
    rewrite drag_world_offset_ok by assumption. simpl. reflexivity.
  - simpl. apply dict_get_set_same.
  - simpl. split; [lra |]. split.
    + intros k m Hin Hdm. simpl in Hin.
      destruct (in_dict_set _ _ _ _ _ Hin) as [[_ ->] | Hin'].
      * simpl. lra.
      * exact (Hinv k m Hin' Hdm).
    + intros Hry Hdy. unfold world_dz. rewrite Hry, Hdy, Ropp_0, sin_0, cos_0.
      split; simpl; ring.
Qed.

Lemma drag_world_offset_camera : forall v w n dx dy,
  rotation_y v = rotation_y w -> scale v = scale w ->
  camera_distance v = camera_distance w ->
  drag_world_offset v n dx dy = drag_world_offset w n dx dy.
Proof.
  intros v w n dx dy H1 H2 H3. unfold drag_world_offset.
  rewrite H1, H2, H3. reflexivity.
Qed.

(** One pointer move during a drag: the anchor, the camera and the drag
    are kept, and the node is put at anchor + this move's offset. *)
Lemma move_drag_step : forall v v' id ax ay az cam ex ey,
  drag_state v id ax ay az cam ->
  mouseMoveEvent v ex ey = Ok v' ->
  drag_state v' id ax ay az cam /\ last_mouse_pos v' = (ex, ey) /\
  exists n off,
    dict_get id (nodes v) = Some n /\
    drag_world_offset v n (IZR (ex - fst (last_mouse_pos v)))
      (IZR (ey - snd (last_mouse_pos v))) = Ok off /\
    dict_get id (nodes v') =
      Some (set_position n (ax + fst off) (ay + 0) (az + snd off)).
Proof.
  intros v v' id ax ay az cam ex ey
    (Hmd & Hsel & Ht & Hry & Hs & Hcd & n & Hg & Hdr & Hox & Hoy & Hoz) Hm.
  unfold mouseMoveEvent in Hm. rewrite Hmd in Hm.
  rewrite (dragging_node_some v id n Hsel Ht Hg Hdr) in Hm.
  destruct (drag_world_offset v n _ _) as [off | e |] eqn:Hoff;
    simpl in Hm; try discriminate.
  injection Hm as <-.
  split; [| split; [reflexivity |]].
  - unfold drag_state; simpl.
    do 6 (split; [assumption |]).
    exists (update_position_by_offset n (fst off) 0 (snd off)).
    rewrite dict_get_set_same. simpl. repeat split; assumption.
  - exists n, off. split; [exact Hg | split; [exact Hoff |]].
    simpl. rewrite dict_get_set_same. unfold update_position_by_offset.
    rewrite Hox, Hoy, Hoz. reflexivity.
Qed.

Lemma run_moves_drag : forall ps v v' id ax ay az cam,
  drag_state v id ax ay az cam -> run_moves v ps = Ok v' ->
  drag_state v' id ax ay az cam /\
  (ps <> [] -> last_mouse_pos v' = last ps (0%Z, 0%Z)).
Proof.
  induction ps as [| p ps IH]; intros v v' id ax ay az cam Hds Hr; simpl in Hr.
  - injection Hr as <-. split; [exact Hds | intros H; contradiction].
  - destruct (mouseMoveEvent v (fst p) (snd p)) as [v1 | e |] eqn:Hm;
      simpl in Hr; try discriminate.
    destruct (move_drag_step v v1 id ax ay az cam (fst p) (snd p) Hds Hm)
      as (Hds1 & Hl1 & _).
    destruct (IH v1 v' id ax ay az cam Hds1 Hr) as [Hds' Hl'].
    split; [exact Hds' |]. intros _.
    destruct ps as [| q ps].
    + simpl in Hr. injection Hr as <-. rewrite Hl1. destruct p; reflexivity.
    + rewrite Hl' by discriminate. reflexivity.
Qed.

Lemma run_moves_app : forall ps qs v v',
  run_moves v (ps ++ qs) = Ok v' ->
  exists v1, run_moves v ps = Ok v1 /\ run_moves v1 qs = Ok v'.
Proof.
  induction ps as [| p ps IH]; intros qs v v' H; simpl in *.
  - exists v; split; [reflexivity | exact H].
  - destruct (mouseMoveEvent v (fst p) (snd p)) as [v1 | e |];
      simpl in *; try discriminate.
    exact (IH qs v1 v' H).
Qed.

(** C4: during one drag (a press that armed node [id], then [n >= 2]
    moves), the last move puts the node at the drag anchor captured by the
    press plus the offset of the last move's own delta (measured from the
    preceding move), computed under the press-time camera at the node's
    current depth; the offsets of the earlier moves are not added (they
    enter only through the depth [z] the last offset is scaled by). *)
Theorem drag_moves_not_accumulated :
  forall (v v' : TreeView3D) (id : string) (n : TreeNode3D)
         (ps : list (Z * Z)) (p : Z * Z),
    mouse_down v = true -> selected_node v = Some id -> py_truthy id = true ->
    dict_get id (nodes v) = Some n -> dragging n = true ->
    ps <> [] ->
    run_moves v (ps ++ [p]) = Ok v' ->
    exists v_prev n_prev off,
      run_moves v ps = Ok v_prev /\
      dict_get id (nodes v_prev) = Some n_prev /\
      drag_world_offset v n_prev (IZR (fst p - fst (last ps (0%Z, 0%Z))))
        (IZR (snd p - snd (last ps (0%Z, 0%Z)))) = Ok off /\
      dict_get id (nodes v') =
        Some (set_position n_prev (orig_x n + fst off) (orig_y n + 0)
                (orig_z n + snd off)).
Proof.
  intros v v' id n ps p Hmd Hsel Ht Hg Hdr Hne Hr.
  assert (Hds : drag_state v id (orig_x n) (orig_y n) (orig_z n) v).
  { unfold drag_state. do 6 (split; [first [assumption | reflexivity] |]).
    exists n; repeat split; assumption. }
  destruct (run_moves_app ps [p] v v' Hr) as (v_prev & Hps & Hp).
  destruct (run_moves_drag ps v v_prev id _ _ _ v Hds Hps) as [Hds' Hlast].
  simpl in Hp.
  destruct (mouseMoveEvent v_prev (fst p) (snd p)) as [v2 | e |] eqn:Hm;
    simpl in Hp; try discriminate.
  injection Hp as <-.
  destruct (move_drag_step _ _ _ _ _ _ _ _ _ Hds' Hm)
    as (_ & _ & n_prev & off & Hg' & Hoff & Hpos).
  exists v_prev, n_prev, off.
  split; [exact Hps | split; [exact Hg' | split; [| exact Hpos]]].
  rewrite <- (Hlast Hne).
  destruct Hds' as (_ & _ & _ & Hry & Hs & Hcd & _).
  rewrite <- Hoff. apply drag_world_offset_camera; symmetry; assumption.
Qed.

Lemma drag_anchor_inv_dragging_scene : drag_anchor_inv dragging_scene.
Proof.
  intros k m [H | []] _. inversion H; subst. reflexivity.
Qed.

(** Witness for C3: a 10-pixel move to the right while the root of
    [dragging_scene] is dragged. *)
Lemma drag_move_offset_witness :
  exists v' n',
    mouseMoveEvent dragging_scene 310 200 = Ok v' /\
    dict_get "root" (nodes v') = Some n' /\ y n' = 0 /\ z n' = 0.
Proof.
  destruct (drag_move_offset dragging_scene 310 200 "root"
              (set_dragging (sample_node "root" None) true)
              eq_refl eq_refl eq_refl eq_refl eq_refl)
    as (v' & n' & H1 & H2 & H3 & H4 & H5 & H6).
  - simpl; lra.
  - simpl; lra.
  - exact drag_anchor_inv_dragging_scene.
  - exists v', n'. destruct (H6 eq_refl eq_refl) as [_ Hz].
    split; [exact H1 | split; [exact H2 | split]].
    + rewrite H4; reflexivity.
    + rewrite Hz; reflexivity.
Defined.

(** Witness for C4: two moves of 10 pixels each during one drag. *)
Lemma drag_moves_witness :
  exists v',
    run_moves dragging_scene ([(310%Z, 200%Z)] ++ [(320%Z, 200%Z)]) = Ok v' /\
    exists v_prev n_prev off,
      run_moves dragging_scene [(310%Z, 200%Z)] = Ok v_prev /\
      dict_get "root" (nodes v_prev) = Some n_prev /\
      drag_world_offset dragging_scene n_prev (IZR (320 - 310)) (IZR (200 - 200)) = Ok off /\
      dict_get "root" (nodes v') = Some (set_position n_prev (0 + fst off) (0 + 0) (0 + snd off)).
Proof.
  eexists. split.
  - simpl. unfold mouseMoveEvent. simpl.
    rewrite drag_world_offset_ok by (simpl; lra). simpl.
    rewrite drag_world_offset_ok; [reflexivity | | simpl; lra].
    simpl. rewrite Ropp_0, sin_0, cos_0. lra.
  - apply (drag_moves_not_accumulated dragging_scene _ "root"
             (set_dragging (sample_node "root" None) true) [(310%Z, 200%Z)] (320%Z, 200%Z));
      try reflexivity.
    + discriminate.
    + simpl. unfold mouseMoveEvent. simpl.
      rewrite drag_world_offset_ok by (simpl; lra). simpl.
      rewrite drag_world_offset_ok; [reflexivity | | simpl; lra].
      simpl. rewrite Ropp_0, sin_0, cos_0. lra.
Defined.

(** ** Pointer release *)

Lemma set_dragging_false_id : forall n,
  dragging n = false -> set_dragging n false = n.
Proof. intros [] H; simpl in *; subst; reflexivity. Qed.

Lemma with_mouse_id : forall v,
  with_mouse v (mouse_down v) (last_mouse_pos v) = v.
Proof. intros []; reflexivity. Qed.

(** The counterexample to C10: in [root_scene] with the pointer held
    (after a press on empty space, say) no node is dragging, yet the
    release is not a no-op: it clears the pointer-held flag [mouse_down]. *)
Lemma release_not_noop :
  let v := with_mouse root_scene true (10%Z, 10%Z) in
  (forall k n, In (k, n) (nodes v) -> dragging n = false) /\
  mouseReleaseEvent v <> v.
Proof.
  simpl. split.
  - intros k n [H | []]. inversion H; subst. reflexivity.
  - intros H. apply (f_equal mouse_down) in H. discriminate.
Qed.

(** C10 (as amended): a release clears [dragging] on every node and sets
    [mouse_down] to false; nothing else changes: camera, selection, hover,
    connections, the last pointer position, and every node's key, position,
    drag anchor, size and color.  With no node dragging only [mouse_down]
    changes, and if the pointer was not held the release changes nothing. *)
Theorem release_frame : forall v : TreeView3D,
  let v' := mouseReleaseEvent v in
  mouse_down v' = false /\
  camera_distance v' = camera_distance v /\ rotation_x v' = rotation_x v /\
  rotation_y v' = rotation_y v /\ rotation_z v' = rotation_z v /\
  scale v' = scale v /\ center_x v' = center_x v /\ center_y v' = center_y v /\
  selected_node v' = selected_node v /\ hovered_node v' = hovered_node v /\
  connections v' = connections v /\ last_mouse_pos v' = last_mouse_pos v /\
  nodes v' = map (fun kn => (fst kn, set_dragging (snd kn) false)) (nodes v) /\
  ((forall k n, In (k, n) (nodes v) -> dragging n = false) ->
   v' = with_mouse v false (last_mouse_pos v) /\
   (mouse_down v = false -> v' = v)).
Proof.
  intros v v'.
  assert (Hn : nodes v' =
               map (fun kn => (fst kn, set_dragging (snd kn) false)) (nodes v)).
  { unfold v', mouseReleaseEvent; simpl. apply map_ext.
    intros [k n]; simpl. destruct (dragging n) eqn:E; [reflexivity |].
    rewrite set_dragging_false_id by exact E. reflexivity. }
  do 12 (split; [reflexivity |]). split; [exact Hn |].
  intros Hnd.
  assert (Hw : v' = with_mouse v false (last_mouse_pos v)).
  { unfold v', mouseReleaseEvent. unfold with_nodes, with_mouse; simpl.
    f_equal. rewrite <- (map_id (nodes v)) at 2. apply map_ext_in.
    intros [k n] Hin; simpl. rewrite (Hnd k n Hin). reflexivity. }
  split; [exact Hw |].
  intros Hmd. rewrite Hw, <- Hmd. apply with_mouse_id.
Qed.

(** ** The drag-anchor invariant *)

Lemma release_drag_anchor_inv : forall v,
  drag_anchor_inv v -> drag_anchor_inv (mouseReleaseEvent v).
Proof.
  intros v Hinv k n Hin Hd. simpl in Hin. apply in_map_iff in Hin.
  destruct Hin as ([k0 n0] & Heq & Hin). simpl in Heq.
  destruct (dragging n0) eqn:E; inversion Heq; subst; simpl in *;
    [discriminate | exact (Hinv _ _ Hin Hd)].
Qed.

Lemma press_drag_anchor_inv : forall v v' ex ey,
  drag_anchor_inv v -> mousePressEvent v ex ey = Ok v' -> drag_anchor_inv v'.
Proof.
  intros v v' ex ey Hinv Hp. unfold mousePressEvent in Hp.
  destruct (find_node_at_position _ ex ey) as [sel | e |]; simpl in Hp;
    try discriminate.
  destruct (negb _).
  - destruct sel as [id |]; [| injection Hp as <-; exact Hinv].
    destruct (py_truthy id); [| injection Hp as <-; exact Hinv].
    destruct (dict_get id _) as [n |] eqn:Hg; injection Hp as <-;
      [| exact Hinv].
    intros k m Hin Hd. simpl in Hin.
    destruct (in_dict_set _ _ _ _ _ Hin) as [[_ ->] | Hin'];
      [reflexivity | exact (Hinv k m Hin' Hd)].
  - injection Hp as <-. exact Hinv.
Qed.

Lemma new_node_drag_anchor_inv : forall c t id p,
  dragging (new_TreeNode3D c t id p) = false.
Proof. reflexivity. Qed.

(** Witness for C1: the projection of a point does not depend on the
    selection. *)
Lemma project_point_spec_witness :
  project_point (with_selection root_scene (Some "root"%string) None) 1 2 3 =
  project_point root_scene 1 2 3.
Proof.
  exact (proj2 (project_point_spec root_scene 1 2 3)
           (with_selection root_scene (Some "root"%string) None)
           eq_refl eq_refl eq_refl eq_refl eq_refl eq_refl eq_refl).
Defined.

(** Witness for C10: a release with the pointer held and nothing dragged
    only clears [mouse_down]. *)
Lemma release_frame_witness :
  mouseReleaseEvent (with_mouse root_scene true (10%Z, 10%Z)) =
  with_mouse (with_mouse root_scene true (10%Z, 10%Z)) false (10%Z, 10%Z).
Proof.
  destruct (release_frame (with_mouse root_scene true (10%Z, 10%Z)))
    as (_ & _ & _ & _ & _ & _ & _ & _ & _ & _ & _ & _ & _ & H).
  apply H. intros k n [E | []]. inversion E; subst. reflexivity.
Defined.

(** ** Rendering and hit-testing orders *)

Section SortFacts.
Context {A : Type} (key : A -> R).

Lemma insert_by_perm : forall a l, Permutation (insert_by key a l) (a :: l).
Proof.
  intros a l; induction l as [| b l IH]; simpl; [reflexivity |].
  destruct (Rleb (key a) (key b)); [reflexivity |].
  rewrite IH. apply perm_swap.
Qed.

Lemma sorted_by_perm : forall l, Permutation (sorted_by key l) l.
Proof.
  induction l as [| a l IH]; simpl; [reflexivity |].
  rewrite insert_by_perm, IH. reflexivity.
Qed.

Lemma insert_by_sorted : forall a l,
  Sorted (fun u w => key u <= key w) l ->
  Sorted (fun u w => key u <= key w) (insert_by key a l).
Proof.
  intros a l; induction l as [| b l IH]; intros Hs; simpl.
  - repeat constructor.
  - unfold Rleb; destruct (Rle_dec (key a) (key b)) as [Hab | Hab].
    + constructor; [exact Hs | constructor; exact Hab].
    + apply Sorted_inv in Hs as [Hs Hh]. constructor; [exact (IH Hs) |].
      destruct l as [| c l]; simpl.
      * constructor; lra.
      * inversion Hh; subst.
        unfold Rleb; destruct (Rle_dec (key a) (key c));
          constructor; lra.
Qed.

Lemma sorted_by_sorted : forall l,
  Sorted (fun u w => key u <= key w) (sorted_by key l).
Proof.
  induction l as [| a l IH]; simpl; [constructor | apply insert_by_sorted; exact IH].
Qed.

Lemma Sorted_snoc : forall (Rel : A -> A -> Prop) l a,
  Sorted Rel l -> (forall b l', l = l' ++ [b] -> Rel b a) ->
  Sorted Rel (l ++ [a]).
Proof.
  intros Rel l a; induction l as [| b l IH]; intros Hs Hl; simpl.
  - repeat constructor.
  - apply Sorted_inv in Hs as [Hs Hh]. constructor.
    + apply IH; [exact Hs |]. intros c l' E. apply (Hl c (b :: l')). rewrite E; reflexivity.
    + destruct l as [| c l]; simpl.
      * constructor. exact (Hl b [] eq_refl).
      * inversion Hh; subst. constructor; assumption.
Qed.

Lemma Sorted_rev : forall (Rel : A -> A -> Prop) l,
  Sorted Rel l -> Sorted (fun u w => Rel w u) (rev l).
Proof.
  intros Rel l; induction l as [| a l IH]; intros Hs; simpl; [constructor |].
  apply Sorted_inv in Hs as [Hs Hh]. apply Sorted_snoc; [exact (IH Hs) |].
  intros b l' E. destruct l as [| c l]; simpl in E.
  - destruct l'; simpl in E; [discriminate | destruct l'; discriminate].
  - inversion Hh; subst.
    apply app_inj_tail in E as [_ <-]. assumption.
Qed.

(** Insertion is stable: it puts [a] before every element of equal key. *)
Lemma filter_insert_by : forall (P : A -> bool) k a l,
  (forall u, P u = Reqb (key u) k) ->
  filter P (insert_by key a l) = if P a then a :: filter P l else filter P l.
Proof.
  intros P k a l HP; induction l as [| b l IH]; simpl.
  - destruct (P a); reflexivity.
  - unfold Rleb; destruct (Rle_dec (key a) (key b)) as [Hab | Hab]; simpl.
    + reflexivity.
    + rewrite IH. destruct (P a) eqn:Ea; [| reflexivity].
      destruct (P b) eqn:Eb; [| reflexivity].
      rewrite HP in Ea, Eb. unfold Reqb in Ea, Eb.
      destruct (Req_dec_T (key a) k); destruct (Req_dec_T (key b) k);
        try discriminate. lra.
Qed.

Lemma filter_sorted_by : forall (P : A -> bool) k l,
  (forall u, P u = Reqb (key u) k) -> filter P (sorted_by key l) = filter P l.
Proof.
  intros P k l HP; induction l as [| a l IH]; simpl; [reflexivity |].
  rewrite (filter_insert_by P k) by exact HP. rewrite IH. reflexivity.
Qed.

Lemma filter_rev : forall (P : A -> bool) l, filter P (rev l) = rev (filter P l).
Proof.
  intros P l; induction l as [| a l IH]; simpl; [reflexivity |].
  rewrite filter_app, IH. simpl. destruct (P a); simpl; [reflexivity | apply app_nil_r].
Qed.

Lemma insert_by_comm : forall a b l,
  key a <> key b ->
  insert_by key a (insert_by key b l) = insert_by key b (insert_by key a l).
Proof.
  intros a b l Hne; induction l as [| c l IH]; simpl;
    repeat (unfold Rleb; match goal with
            | |- context [Rle_dec ?u ?w] => destruct (Rle_dec u w)
            end; simpl); try lra; try reflexivity.
  rewrite IH. reflexivity.
Qed.

Lemma sorted_by_perm_eq : forall l l',
  Permutation l l' -> NoDup (map key l) -> sorted_by key l = sorted_by key l'.
Proof.
  intros l l' Hp; induction Hp as [| a l l' Hp IH | a b l | l l' l'' H1 IH1 H2 IH2];
    intros Hnd; simpl.
  - reflexivity.
  - inversion Hnd; subst. rewrite IH by assumption. reflexivity.
  - simpl in Hnd. inversion Hnd as [| ? ? Hb Hnd']; subst.
    apply insert_by_comm. intros E. apply Hb. left. symmetry; exact E.
  - rewrite IH1 by exact Hnd. apply IH2.
    eapply Permutation_NoDup; [apply Permutation_map; exact H1 | exact Hnd].
Qed.

End SortFacts.

(** The counterexample to C6: in [tie_scene] the two nodes have the same
    depth.  Both sorts keep them in map order ([a] then [b]), so reversing the
    rendering order lists [b] first and re-sorting it keeps [b] first, while
    the hit-testing order lists [a] first. *)
Lemma render_hit_order_ties :
  render_order tie_scene =
    [sample_node "a" (Some "root"%string); sample_node "b" (Some "root"%string)] /\
  hit_order tie_scene =
    [sample_node "a" (Some "root"%string); sample_node "b" (Some "root"%string)] /\
  sorted_by (depth_key tie_scene) (rev (render_order tie_scene)) <>
    hit_order tie_scene /\
  rev (render_order tie_scene) <> hit_order tie_scene.
Proof.
  assert (Hr : render_order tie_scene =
    [sample_node "a" (Some "root"%string); sample_node "b" (Some "root"%string)]).
  { unfold render_order, sorted_by_reverse; simpl.
    rewrite Rleb_true by (unfold depth_key; simpl; lra). reflexivity. }
  assert (Hh : hit_order tie_scene =
    [sample_node "a" (Some "root"%string); sample_node "b" (Some "root"%string)]).
  { unfold hit_order; simpl.
    rewrite Rleb_true by (unfold depth_key; simpl; lra). reflexivity. }
  split; [exact Hr | split; [exact Hh | split]].
  - rewrite Hr, Hh; simpl. rewrite Rleb_true by (unfold depth_key; simpl; lra).
    intros E. inversion E.
  - rewrite Hr, Hh; simpl.
    intros E. inversion E.
Qed.

(** C6 (as amended): the rendering order is Python's [sorted(...,
    reverse=True)] (the reverse of a stable ascending sort of the reversed
    list) and the hit-testing order a stable ascending sort of the node
    map's values, by [z + camera_distance].  Both are permutations of the
    nodes, the first descending and the second ascending; both keep nodes
    of equal depth in map order; and reversing the rendering order gives
    exactly the hit-testing order whenever no two nodes have the same depth. *)
Theorem render_hit_orders : forall v : TreeView3D,
  let key := depth_key v in
  let l := dict_values (nodes v) in
  render_order v = rev (sorted_by key (rev l)) /\
  hit_order v = sorted_by key l /\
  Permutation (render_order v) l /\ Permutation (hit_order v) l /\
  Sorted (fun a b => key b <= key a) (render_order v) /\
  Sorted (fun a b => key a <= key b) (hit_order v) /\
  (forall d, filter (fun n => Reqb (key n) d) (render_order v) =
             filter (fun n => Reqb (key n) d) l) /\
  (forall d, filter (fun n => Reqb (key n) d) (hit_order v) =
             filter (fun n => Reqb (key n) d) l) /\
  (NoDup (map key l) -> rev (render_order v) = hit_order v).
Proof.
  intros v key l.
  split; [reflexivity |]. split; [reflexivity |].
  split.
  { unfold render_order, sorted_by_reverse. fold key l.
    rewrite <- Permutation_rev, sorted_by_perm. symmetry; apply Permutation_rev. }
  split; [apply sorted_by_perm |].
  split.
  { unfold render_order, sorted_by_reverse. fold key l.
    apply (Sorted_rev (fun a b => key a <= key b)). apply sorted_by_sorted. }
  split; [apply sorted_by_sorted |].
  split.
  { intros d. unfold render_order, sorted_by_reverse. fold key l.
    rewrite filter_rev, (filter_sorted_by key _ d) by reflexivity.
    rewrite filter_rev, rev_involutive. reflexivity. }
  split.
  { intros d. apply (filter_sorted_by key _ d). reflexivity. }
  intros Hnd. unfold render_order, hit_order, sorted_by_reverse. fold key l.
  rewrite rev_involutive. apply sorted_by_perm_eq.
  - symmetry; apply Permutation_rev.
  - rewrite map_rev. eapply Permutation_NoDup; [apply Permutation_rev | exact Hnd].
Qed.

(** ** Loads *)

(** Evaluation of the scene builders, keeping the real-number arithmetic
    symbolic. *)
Ltac eval_real_free := lazy -[Rplus Rmult Rminus Rdiv Ropp sin cos PI INR IZR Rinv].

(** The counterexample to C7: with [node_0] selected and hovered (ids of a
    tree loaded by [load_tree_from_model]), [create_demo_tree] keeps both
    references although the new node map has no [node_0]. *)
Lemma load_keeps_dangling_selection :
  let v := with_selection (sample_view [] None) (Some "node_0"%string)
             (Some "node_0"%string) in
  exists v', create_demo_tree draw0 v = Ok v' /\
    selected_node v' = Some "node_0"%string /\
    hovered_node v' = Some "node_0"%string /\
    dict_get "node_0" (nodes v') = None.
Proof.
  eexists. split; [eval_real_free; reflexivity |].
  split; [reflexivity | split; [reflexivity |]]. eval_real_free. reflexivity.
Qed.

(** C7 (as amended): neither load operation clears the selection or the
    hover: after [create_demo_tree] (which always succeeds) or
    [load_tree_from_model] (for every model and outcome),
    [selected_node], [hovered_node] and [mouse_down] keep their previous
    values, whatever ids the new node map holds. *)
Theorem loads_keep_selection :
  forall (draw : nat -> Cosmetic) (fuel : nat) (m : TreeModel) (v : TreeView3D),
    (exists v', create_demo_tree draw v = Ok v' /\
       selected_node v' = selected_node v /\ hovered_node v' = hovered_node v /\
       mouse_down v' = mouse_down v) /\
    (let v' := fst (load_tree_from_model draw fuel m v) in
     selected_node v' = selected_node v /\ hovered_node v' = hovered_node v /\
     mouse_down v' = mouse_down v).
Proof.
  intros draw fuel m v. split.
  - eexists. split; [eval_real_free; reflexivity |]. repeat split.
  - unfold load_tree_from_model.
    destruct m; [repeat split | |]; destruct (layout_tree _ _ _); repeat split.
Qed.

Lemma dict_mem_set_mono : forall {V} k (val : V) d q,
  dict_mem q d = true -> dict_mem q (dict_set k val d) = true.
Proof.
  intros V k val d q H. unfold dict_mem in *.
  destruct (String.eqb q k) eqn:E.
  - apply String.eqb_eq in E; subst. rewrite dict_get_set_same. reflexivity.
  - rewrite dict_get_set_other; [exact H |].
    intros ->. rewrite String.eqb_refl in E. discriminate.
Qed.

Lemma dict_mem_set_same : forall {V} k (val : V) d, dict_mem k (dict_set k val d) = true.
Proof. intros. unfold dict_mem. rewrite dict_get_set_same. reflexivity. Qed.

Lemma add_node_import_inv : forall draw b t id p pos,
  import_inv (b_nodes b) -> id <> "root"%string -> dict_mem p (b_nodes b) = true ->
  import_inv (b_nodes (add_node draw b t id (Some p) pos)).
Proof.
  intros draw b t id p pos (r & rest & Hns & Hr & Hrest) Hid Hp.
  unfold add_node; simpl. set (n := match pos with
                                    | Some (x', y', z') => _
                                    | None => _ end).
  exists r, (dict_set id n rest). rewrite Hns. simpl.
  assert (E : String.eqb id "root" = false) by (apply String.eqb_neq; exact Hid).
  rewrite E. split; [reflexivity | split; [exact Hr |]].
  assert (Hmono : forall q, dict_mem q (("root"%string, r) :: rest) = true ->
                  dict_mem q (("root"%string, r) :: dict_set id n rest) = true).
  { intros q Hq. pose proof (dict_mem_set_mono id n _ q Hq) as H'.
    simpl in H'. rewrite E in H'. exact H'. }
  apply Forall_forall. intros [k m] Hin.
  destruct (in_dict_set _ _ _ _ _ Hin) as [[-> ->] | Hin'].
  - split; [exact Hid |]. exists p. split.
    + unfold n; destruct pos as [[[? ?] ?] |]; reflexivity.
    + apply Hmono. rewrite <- Hns. exact Hp.
  - rewrite Forall_forall in Hrest. destruct (Hrest _ Hin') as [Hk (q & Hq & Hm)].
    split; [exact Hk |]. exists q. split; [exact Hq |]. apply Hmono. rewrite <- Hns. exact Hm.
Qed.

Lemma add_node_mem : forall draw b t id p pos q,
  dict_mem q (b_nodes b) = true -> dict_mem q (b_nodes (add_node draw b t id p pos)) = true.
Proof. intros. apply dict_mem_set_mono. assumption. Qed.

Lemma data_id_not_root : forall level i,
  ("data_" ++ string_of_nat level ++ "_" ++ string_of_nat i)%string <> "root"%string.
Proof. intros level i H. discriminate H. Qed.

Lemma create_tree_from_data_inv : forall draw data p level b,
  import_inv (b_nodes b) -> dict_mem p (b_nodes b) = true ->
  import_inv (b_nodes (create_tree_from_data draw data (Some p) level b)) /\
  (forall q, dict_mem q (b_nodes b) = true ->
     dict_mem q (b_nodes (create_tree_from_data draw data (Some p) level b)) = true).
Proof.
  intros draw data. induction data as [| items IHitems] using PyValue_ind'.
  - intros p level b Hinv Hp. simpl. split; [exact Hinv | auto].
  - intros p level b Hinv Hp. simpl. generalize O as i. revert b Hinv Hp.
    induction items as [| [key value] es IH]; intros b Hinv Hp i.
    + split; [exact Hinv | auto].
    + inversion IHitems as [| ? ? Hval Hes]; subst. simpl in Hval.
      pose (nid := ("data_" ++ string_of_nat level ++ "_" ++ string_of_nat i)%string).
      pose (b1 := add_node draw b key nid (Some p) (Some (INR i * 50, INR level * -100, 0))).
      assert (Hinv1 : import_inv (b_nodes b1))
        by (apply add_node_import_inv; [exact Hinv | apply data_id_not_root | exact Hp]).
      assert (Hmono1 : forall q, dict_mem q (b_nodes b) = true -> dict_mem q (b_nodes b1) = true)
        by (intros; apply add_node_mem; assumption).
      assert (Hnid : dict_mem nid (b_nodes b1) = true) by apply dict_mem_set_same.
      pose (b2 := if py_truthy p then connect b1 p nid else b1).
      assert (Hb2 : b_nodes b2 = b_nodes b1) by (unfold b2; destruct (py_truthy p); reflexivity).
      pose (b3 := match value with
                  | VDict _ => create_tree_from_data draw value (Some nid) (S level) b2
                  | VOther => b2 end).
      assert (Hb3 : import_inv (b_nodes b3) /\
                    forall q, dict_mem q (b_nodes b1) = true -> dict_mem q (b_nodes b3) = true).
      { unfold b3. destruct value as [sub |].
        - rewrite <- Hb2 in Hinv1, Hnid.
          destruct (Hval nid (S level) b2 Hinv1 Hnid) as [H1 H2].
          split; [exact H1 |]. intros q Hq. apply H2. rewrite Hb2. exact Hq.
        - rewrite Hb2. split; [exact Hinv1 | auto]. }
      destruct Hb3 as [Hinv3 Hmono3].
      destruct (IH Hes b3 Hinv3 (Hmono3 p (Hmono1 p Hp)) (S i)) as [Hi Hm].
      split; [exact Hi |]. intros q Hq. apply Hm, Hmono3, Hmono1, Hq.
Qed.

Lemma render_hit_orders_witness :
  NoDup (map (depth_key depth_scene) (dict_values (nodes depth_scene))) /\
  rev (render_order depth_scene) = hit_order depth_scene.
Proof.
  assert (Hnd : NoDup (map (depth_key depth_scene) (dict_values (nodes depth_scene)))).
  { unfold depth_key; simpl. constructor; [| constructor; [| constructor]].
    - intros [E | []]. lra.
    - intros []. }
  split; [exact Hnd |].
  destruct (render_hit_orders depth_scene) as (_ & _ & _ & _ & _ & _ & _ & _ & H).
  exact (H Hnd).
Defined.

Lemma null_parent_count_none : forall rest : Nodes,
  Forall (fun kn => exists p, parent_id (snd kn) = Some p) rest ->
  null_parent_count rest = O.
Proof.
  induction rest as [| [k n] rest' IH]; intros H; [reflexivity |].
  inversion H as [| ? ? (p & Hp) H']; subst. unfold null_parent_count in *.
  simpl in *. rewrite Hp. apply IH, H'.
Qed.

Lemma import_inv_shape : forall ns,
  import_inv ns ->
  null_parent_count ns = 1%nat /\
  Forall (fun kn => match parent_id (snd kn) with
                    | Some p => dict_mem p ns = true
                    | None => True end) ns.
Proof.
  intros ns (r & rest & Hns & Hr & Hrest). split.
  - rewrite Hns. unfold null_parent_count, dict_values. simpl. rewrite Hr. simpl.
    f_equal. apply null_parent_count_none.
    eapply Forall_impl; [| exact Hrest]. intros kn [_ (p & Hp & _)]. exists p; exact Hp.
  - rewrite Hns at 1. constructor; [simpl; rewrite Hr; exact I |].
    eapply Forall_impl; [| exact Hrest]. intros [k n] [_ (p & Hp & Hm)]. simpl in *.
    rewrite Hp. exact Hm.
Qed.

(** The counterexample to C8: the demo tree has 17 nodes and 11 leaves
    (three documents, six project items, two settings), not 1 + 3 + 11 = 15
    nodes: below the categories it has the two project nodes, which are
    not leaves. *)
Lemma demo_count_not_root_categories_leaves :
  exists v', create_demo_tree draw0 (sample_view [] None) = Ok v' /\
    List.length (nodes v') = 17%nat /\
    leaf_count (nodes v') (connections v') = 11%nat /\
    List.length (nodes v') <> (1 + 3 + leaf_count (nodes v') (connections v'))%nat.
Proof.
  eexists. split; [eval_real_free; reflexivity |].
  eval_real_free. split; [reflexivity | split; [reflexivity | discriminate]].
Qed.

(** C8 (as amended): [create_demo_tree] (for any outcome of the random
    draws) stores its 17 nodes under 17 distinct keys, each node under its
    own id: the root, 3 categories, 3 documents, 2 projects with 3 items
    each and 2 settings; 11 of them are leaves; exactly one node has a null
    parent and every other parent id is a key of the map.  For the import
    path (the root, then [create_tree_from_data(data, "root", 1)]) and any
    nested dictionary, exactly one node of the map has a null parent and
    every non-null parent id is a key of the map. *)
Theorem loaded_tree_shape : forall (draw : nat -> Cosmetic) (data : PyValue) (v : TreeView3D),
  (exists v', create_demo_tree draw v = Ok v' /\
     map fst (nodes v') =
       ["root"; "cat_0"; "cat_1"; "cat_2"; "doc_0"; "doc_1"; "doc_2";
        "proj_0"; "item_0_0"; "item_0_1"; "item_0_2";
        "proj_1"; "item_1_0"; "item_1_1"; "item_1_2"; "set_0"; "set_1"]%string /\
     NoDup (map fst (nodes v')) /\
     Forall (fun kn => node_id (snd kn) = fst kn) (nodes v') /\
     List.length (nodes v') = 17%nat /\
     leaf_count (nodes v') (connections v') = 11%nat /\
     null_parent_count (nodes v') = 1%nat /\
     Forall (fun kn => match parent_id (snd kn) with
                       | Some p => dict_mem p (nodes v') = true
                       | None => True end) (nodes v')) /\
  (let ns := b_nodes (import_build draw data) in
   null_parent_count ns = 1%nat /\
   Forall (fun kn => match parent_id (snd kn) with
                     | Some p => dict_mem p ns = true
                     | None => True end) ns).
Proof.
  intros draw data v. split.
  - eexists. split; [eval_real_free; reflexivity |].
    eval_real_free.
    split; [reflexivity |].
    split; [repeat constructor; simpl; intuition discriminate |].
    split; [repeat constructor |].
    split; [reflexivity | split; [reflexivity | split; [reflexivity |]]].
    repeat constructor.
  - apply import_inv_shape. unfold import_build.
    apply create_tree_from_data_inv.
    + exists (set_position (new_TreeNode3D (draw O) "Root" "root" None) 0 0 0), [].
      split; [reflexivity | split; [reflexivity | constructor]].
    + reflexivity.
Qed.

(** [create_tree_from_data] names a node after its level and its index
    among its siblings only: on the built-in categories of
    [load_tree_from_model] it creates 11 nodes below the root, but
    siblings under different parents share ids and the map ends with 8
    keys. *)
Lemma demo_categories_ids_collide : forall draw : nat -> Cosmetic,
  b_made (import_build draw demo_categories) = 12%nat /\
  map fst (b_nodes (import_build draw demo_categories)) =
    ["root"; "data_1_0"; "data_2_0"; "data_2_1"; "data_1_1";
     "data_3_0"; "data_3_1"; "data_1_2"]%string.
Proof. intros draw. eval_real_free. split; reflexivity. Qed.

Lemma in_children_of : forall nid conns c,
  In c (children_of nid conns) -> In (nid, c) conns.
Proof.
  intros nid conns c. induction conns as [| [s d] cs IH]; simpl; [tauto |].
  destruct (String.eqb s nid) eqn:E.
  - apply String.eqb_eq in E; subst. intros [-> | H]; [left; reflexivity | right; auto].
  - intros H; right; auto.
Qed.

Lemma dict_mem_set_keep : forall {V} k (val : V) d q,
  dict_mem q d = true -> dict_mem q (dict_set k val d) = true.
Proof. intros. apply dict_mem_set_mono. assumption. Qed.

(** On the cycle a -> b -> a, with both nodes in the map, the layout pass
    started at [a] or [b] runs out of any recursion budget, and so does the
    highlighting walk. *)
Lemma cycle_runs_out_of_fuel : forall fuel,
  (forall ns level k, dict_mem "a" ns = true -> dict_mem "b" ns = true ->
     k = "a"%string \/ k = "b"%string ->
     fst (layout_level fuel cycle_conns ns k level) = Exhausted) /\
  (forall hs k, k = "a"%string \/ k = "b"%string ->
     add_children_recursive fuel cycle_conns k hs = OutOfFuel).
Proof.
  induction fuel as [| f [IHl IHh]].
  - split; intros; reflexivity.
  - split.
    + intros ns level k Ha Hb Hk. simpl.
      unfold dict_mem in Ha, Hb.
      destruct (dict_get "a" ns) as [na |] eqn:Ea; [| discriminate].
      destruct (dict_get "b" ns) as [nb |] eqn:Eb; [| discriminate].
      destruct Hk as [-> | ->]; simpl; unfold lookup_node.
      * rewrite Ea, Eb. simpl.
        match goal with |- context[layout_level f cycle_conns ?ns1 "b" ?l] =>
          pose proof (IHl ns1 l "b"%string) as H end.
        destruct (layout_level f cycle_conns _ "b" _) as [st ns2]. simpl in H |- *.
        rewrite H; [reflexivity | apply dict_mem_set_keep; unfold dict_mem; rewrite Ea; reflexivity
                   | apply dict_mem_set_keep; unfold dict_mem; rewrite Eb; reflexivity | right; reflexivity].
      * rewrite Eb, Ea. simpl.
        match goal with |- context[layout_level f cycle_conns ?ns1 "a" ?l] =>
          pose proof (IHl ns1 l "a"%string) as H end.
        destruct (layout_level f cycle_conns _ "a" _) as [st ns2]. simpl in H |- *.
        rewrite H; [reflexivity | apply dict_mem_set_keep; unfold dict_mem; rewrite Ea; reflexivity
                   | apply dict_mem_set_keep; unfold dict_mem; rewrite Eb; reflexivity | left; reflexivity].
    + intros hs k [-> | ->]; simpl.
      * rewrite IHh by (right; reflexivity). reflexivity.
      * rewrite IHh by (left; reflexivity). reflexivity.
Qed.

(** The counterexample to C9: on the cycle a -> b -> a of [cycle_conns]
    (nodes [a] and [b] of [tie_scene]), the layout pass and the highlighting
    walk started at [a] never return, whatever the recursion budget. *)
Lemma cycle_traversals_diverge :
  (forall fuel, fst (layout_level fuel cycle_conns (nodes tie_scene) "a" O) = Exhausted) /\
  (forall fuel, add_children_recursive fuel cycle_conns "a" [] = OutOfFuel).
Proof.
  split; intros fuel.
  - apply (proj1 (cycle_runs_out_of_fuel fuel)); [reflexivity | reflexivity | left; reflexivity].
  - apply (proj2 (cycle_runs_out_of_fuel fuel)). left; reflexivity.
Qed.

Lemma layout_children_not_exhausted : forall rec nid level count cs i ns,
  (forall c ns', In c cs -> fst (rec ns' c) <> Exhausted) ->
  fst (layout_children rec nid level count i cs ns) <> Exhausted.
Proof.
  intros rec nid level count cs. induction cs as [| c cs' IH]; intros i ns Hrec.
  - simpl. discriminate.
  - simpl. unfold lookup_node.
    destruct (dict_get c ns) as [child |]; [| simpl; discriminate].
    destruct (dict_get nid ns) as [parent |]; [| simpl; discriminate].
    match goal with |- context[rec ?ns1 c] =>
      pose proof (Hrec c ns1 (or_introl eq_refl)) as Hc;
      destruct (rec ns1 c) as [st ns2] end.
    destruct st; simpl in Hc |- *.
    + apply IH. intros c' ns' Hin. apply Hrec. right; exact Hin.
    + discriminate.
    + exfalso; apply Hc; reflexivity.
Qed.

Lemma add_children_loop_not_out_of_fuel : forall rec nid cs hs,
  (forall d hs', In (nid, d) cs -> rec hs' d <> OutOfFuel) ->
  add_children_loop rec nid cs hs <> OutOfFuel.
Proof.
  intros rec nid cs. induction cs as [| [s d] cs' IH]; intros hs Hrec; simpl.
  - discriminate.
  - destruct (String.eqb s nid) eqn:E.
    + apply String.eqb_eq in E; subst.
      pose proof (Hrec d (set_add d hs) (or_introl eq_refl)) as Hd.
      destruct (rec (set_add d hs) d) as [hs2 | e |]; simpl.
      * apply IH. intros d' hs' Hin. apply Hrec. right; exact Hin.
      * discriminate.
      * exfalso; apply Hd; reflexivity.
    + apply IH. intros d' hs' Hin. apply Hrec. right; exact Hin.
Qed.

(** C9 (as amended): the traversals keep no visited set; they terminate
    on connection sets that admit a ranking [r] with
    [r src < r dest <= B] for every connection (that is, acyclic ones): a
    layout pass or a highlighting walk started at node [k] returns within
    recursion depth [B - r k + 1] (the layout pass possibly with a
    [KeyError]), and [_layout_tree] within depth [B + 1]. *)
Theorem ranked_traversals_terminate :
  forall (conns : list (string * string)) (r : string -> nat) (B : nat),
  (forall s d, In (s, d) conns -> (r s < r d <= B)%nat) ->
  (forall fuel k, (B - r k < fuel)%nat ->
     (forall ns level, fst (layout_level fuel conns ns k level) <> Exhausted) /\
     (forall hs, add_children_recursive fuel conns k hs <> OutOfFuel)) /\
  (forall fuel ns, (B < fuel)%nat -> fst (layout_tree fuel conns ns) <> Exhausted).
Proof.
  intros conns r B Hrank.
  assert (Hmain : forall fuel k, (B - r k < fuel)%nat ->
     (forall ns level, fst (layout_level fuel conns ns k level) <> Exhausted) /\
     (forall hs, add_children_recursive fuel conns k hs <> OutOfFuel)).
  { induction fuel as [| f IH]; intros k Hk; [lia |].
    assert (Hchild : forall d, In (k, d) conns -> (B - r d < f)%nat)
      by (intros d Hin; specialize (Hrank _ _ Hin); lia).
    split.
    - intros ns level. simpl.
      destruct (children_of k conns) as [| c0 cs0] eqn:Ec; [simpl; discriminate |].
      unfold lookup_node. destruct (dict_get k ns); [| simpl; discriminate].
      rewrite <- Ec. apply layout_children_not_exhausted.
      intros c ns' Hin. apply (IH c).
      apply Hchild, in_children_of, Hin.
    - intros hs. simpl. apply add_children_loop_not_out_of_fuel.
      intros d hs' Hin. apply (IH d (Hchild d Hin)). }
  split; [exact Hmain |].
  intros fuel ns Hf. unfold layout_tree.
  destruct (find_root ns) as [root_id |]; [| simpl; discriminate].
  destruct (py_truthy root_id); [| simpl; discriminate].
  unfold lookup_node. destruct (dict_get root_id ns); [| simpl; discriminate].
  apply (Hmain fuel root_id); lia.
Qed.

Lemma ranked_traversals_terminate_witness :
  (forall s d, In (s, d) chain_conns -> (chain_rank s < chain_rank d <= 2)%nat) /\
  (2 - chain_rank "root" < 3)%nat /\
  fst (layout_level 3 chain_conns
         [("root"%string, sample_node "root" None);
          ("a"%string, sample_node "a" (Some "root"%string));
          ("b"%string, sample_node "b" (Some "a"%string))] "root" 0) <> Exhausted /\
  add_children_recursive 3 chain_conns "root" [] <> OutOfFuel.
Proof.
  assert (Hr : forall s d, In (s, d) chain_conns -> (chain_rank s < chain_rank d <= 2)%nat).
  { intros s d Hin. simpl in Hin.
    destruct Hin as [E | [E | []]]; inversion E; subst; unfold chain_rank; simpl; lia. }
  assert (Hk : (2 - chain_rank "root" < 3)%nat) by (unfold chain_rank; simpl; lia).
  destruct (proj1 (ranked_traversals_terminate chain_conns chain_rank 2 Hr) 3%nat "root"%string Hk)
    as [Hl Hh].
  split; [exact Hr | split; [exact Hk | split; [apply Hl | apply Hh]]].
Defined.

(** ** The layout pass on trees *)

Lemma set_position_twice : forall n a b c a' b' c',
  set_position (set_position n a b c) a' b' c' = set_position n a' b' c'.
Proof. reflexivity. Qed.

Lemma node_eq_skeleton : forall n m,
  skeleton n = skeleton m -> x n = x m -> y n = y m -> z n = z m -> n = m.
Proof.
  intros [] [] H Hx Hy Hz. unfold skeleton, set_position in H. simpl in *.
  injection H. intros. subst. reflexivity.
Qed.

Lemma dict_get_skel : forall q ns,
  dict_get q (skel_map ns) = option_map skeleton (dict_get q ns).
Proof.
  intros q ns. induction ns as [| [k n] ns IH]; simpl; [reflexivity |].
  destruct (String.eqb q k); [reflexivity | exact IH].
Qed.

Lemma moved_get : forall a b q, moved a b ->
  option_map skeleton (dict_get q a) = option_map skeleton (dict_get q b).
Proof. intros a b q H. rewrite <- !dict_get_skel. unfold moved in H. rewrite H. reflexivity. Qed.

Lemma skel_map_set : forall c v ns,
  skel_map (dict_set c v ns) = dict_set c (skeleton v) (skel_map ns).
Proof.
  intros c v ns. induction ns as [| [k n] ns IH]; simpl; [reflexivity |].
  destruct (String.eqb c k); simpl; [reflexivity | rewrite IH; reflexivity].
Qed.

Lemma dict_set_get_same : forall {V} c (v : V) d,
  dict_get c d = Some v -> dict_set c v d = d.
Proof.
  intros V c v d. induction d as [| [k w] d IH]; simpl; [discriminate |].
  destruct (String.eqb c k) eqn:E.
  - intros H. inversion H; subst. reflexivity.
  - intros H. rewrite IH by exact H. reflexivity.
Qed.

Lemma moved_set2 : forall a b c n1 n2 x1 y1 z1 x2 y2 z2,
  moved a b -> dict_get c a = Some n1 -> dict_get c b = Some n2 ->
  moved (dict_set c (set_position n1 x1 y1 z1) a) (dict_set c (set_position n2 x2 y2 z2) b).
Proof.
  intros a b c n1 n2 x1 y1 z1 x2 y2 z2 H H1 H2. unfold moved in *.
  rewrite !skel_map_set, H.
  pose proof (moved_get a b c H) as G. rewrite H1, H2 in G. simpl in G.
  assert (G' : skeleton n1 = skeleton n2) by congruence.
  change (skeleton (set_position n1 x1 y1 z1)) with (skeleton n1).
  change (skeleton (set_position n2 x2 y2 z2)) with (skeleton n2).
  rewrite G'. reflexivity.
Qed.

Lemma moved_set : forall a c n x1 y1 z1,
  dict_get c a = Some n -> moved a (dict_set c (set_position n x1 y1 z1) a).
Proof.
  intros a c n x1 y1 z1 H. unfold moved. rewrite skel_map_set.
  assert (Hs : dict_get c (skel_map a) = Some (skeleton n))
    by (rewrite dict_get_skel, H; reflexivity).
  rewrite (dict_set_get_same _ _ _ Hs) at 1. reflexivity.
Qed.

Lemma moved_refl : forall a, moved a a.
Proof. intros; reflexivity. Qed.

Lemma moved_sym : forall a b, moved a b -> moved b a.
Proof. unfold moved; intros; symmetry; assumption. Qed.

Lemma moved_trans : forall a b c, moved a b -> moved b c -> moved a c.
Proof. unfold moved; intros; congruence. Qed.

Lemma find_root_skel : forall ns, find_root (skel_map ns) = find_root ns.
Proof.
  induction ns as [| [k n] ns IH]; simpl; [reflexivity |].
  destruct (parent_id n); [exact IH | reflexivity].
Qed.

Lemma find_root_moved : forall a b, moved a b -> find_root a = find_root b.
Proof. intros a b H. rewrite <- (find_root_skel a), <- (find_root_skel b). rewrite H. reflexivity. Qed.

Lemma layout_children_moved : forall rec nid level count cs i ns,
  (forall ns0 c, moved ns0 (snd (rec ns0 c))) ->
  moved ns (snd (layout_children rec nid level count i cs ns)).
Proof.
  intros rec nid level count cs. induction cs as [| c cs' IH]; intros i ns Hrec.
  - apply moved_refl.
  - simpl. unfold lookup_node.
    destruct (dict_get c ns) as [child |] eqn:Ec; [| apply moved_refl].
    destruct (dict_get nid ns) as [parent |]; [| apply moved_refl].
    match goal with |- context[rec (dict_set c (set_position child ?xa ?ya ?za) ns) c] =>
      pose proof (moved_set ns c child xa ya za Ec) as H1;
      pose proof (Hrec (dict_set c (set_position child xa ya za) ns) c) as H2;
      destruct (rec (dict_set c (set_position child xa ya za) ns) c) as [st ns2] end.
    simpl in H2. destruct st; simpl.
    + eapply moved_trans; [eapply moved_trans; [exact H1 | exact H2] |]. apply IH, Hrec.
    + eapply moved_trans; [exact H1 | exact H2].
    + eapply moved_trans; [exact H1 | exact H2].
Qed.

Lemma layout_level_moved : forall fuel conns ns k L,
  moved ns (snd (layout_level fuel conns ns k L)).
Proof.
  induction fuel as [| f IH]; intros conns ns k L; simpl; [apply moved_refl |].
  destruct (children_of k conns); [apply moved_refl |].
  unfold lookup_node. destruct (dict_get k ns); [| apply moved_refl].
  apply layout_children_moved. intros ns0 c. apply IH.
Qed.

Lemma layout_children_status : forall rec nid level count cs i a b,
  (forall ns0 c, moved ns0 (snd (rec ns0 c))) ->
  (forall a0 b0 c, moved a0 b0 -> fst (rec a0 c) = fst (rec b0 c)) ->
  moved a b ->
  fst (layout_children rec nid level count i cs a) =
  fst (layout_children rec nid level count i cs b).
Proof.
  intros rec nid level count cs. induction cs as [| c cs' IH]; intros i a b Hm Hs Hab.
  - reflexivity.
  - simpl. unfold lookup_node.
    pose proof (moved_get a b c Hab) as Gc. pose proof (moved_get a b nid Hab) as Gp.
    destruct (dict_get c a) as [ca |] eqn:Eca, (dict_get c b) as [cb |] eqn:Ecb;
      try discriminate Gc; [| reflexivity].
    destruct (dict_get nid a) as [pa |], (dict_get nid b) as [pb |];
      try discriminate Gp; [| reflexivity].
    match goal with |- fst (lbind (rec ?a1 c) _) = fst (lbind (rec ?b1 c) _) =>
      assert (Hab1 : moved a1 b1) by (apply moved_set2; assumption);
      pose proof (Hs a1 b1 c Hab1) as Hst;
      pose proof (Hm a1 c) as Ha2; pose proof (Hm b1 c) as Hb2;
      destruct (rec a1 c) as [sa a2], (rec b1 c) as [sb b2] end.
    simpl in Hst, Ha2, Hb2. subst sb. destruct sa; simpl; try reflexivity.
    apply IH; [exact Hm | exact Hs |].
    eapply moved_trans; [apply moved_sym; exact Ha2 |].
    eapply moved_trans; [exact Hab1 | exact Hb2].
Qed.

Lemma layout_level_status : forall fuel conns k L a b,
  moved a b -> fst (layout_level fuel conns a k L) = fst (layout_level fuel conns b k L).
Proof.
  induction fuel as [| f IH]; intros conns k L a b Hab; simpl; [reflexivity |].
  destruct (children_of k conns); [reflexivity |].
  unfold lookup_node.
  pose proof (moved_get a b k Hab) as Gk.
  destruct (dict_get k a), (dict_get k b); try discriminate Gk; [| reflexivity].
  apply layout_children_status; [| | exact Hab].
  - intros ns0 c. apply layout_level_moved.
  - intros a0 b0 c H. apply IH. exact H.
Qed.

Lemma placed_at_transport : forall ns ns2 lvl i n p c,
  dict_get p ns = dict_get p ns2 -> dict_get c ns = dict_get c ns2 ->
  placed_at ns2 lvl i n p c -> placed_at ns lvl i n p c.
Proof.
  intros ns ns2 lvl i n p c Hp Hc (np & nc & Gp & Gc & Hx). exists np, nc.
  rewrite Hp, Hc. auto.
Qed.

Lemma children_of_in : forall nid conns c,
  In (nid, c) conns -> In c (children_of nid conns).
Proof.
  intros nid conns c. induction conns as [| [s d] cs IH]; simpl; [tauto |].
  intros [E | H].
  - inversion E; subst. rewrite String.eqb_refl. left; reflexivity.
  - destruct (String.eqb s nid); [right |]; auto.
Qed.

Section TreeLayout.

Variable conns : list (string * string).
Variable r : string -> nat.
Hypothesis Hrank : forall s d, In (s, d) conns -> (r s < r d)%nat.
Hypothesis Hnd : NoDup (map snd conns).

Lemma reach_rank : forall u q d, reach conns u q d ->
  (r u <= r q)%nat /\ (d <> O -> r u < r q)%nat.
Proof.
  intros u q d H. induction H as [k | k c q d Hin H [IH1 IH2]].
  - split; [lia | intros C; exfalso; apply C; reflexivity].
  - specialize (Hrank _ _ Hin). split; intros; lia.
Qed.

Lemma reach_self_zero : forall u d, reach conns u u (S d) -> False.
Proof. intros u d H. destruct (reach_rank _ _ _ H) as [_ H2]. specialize (H2 ltac:(discriminate)). lia. Qed.

Lemma reach_back : forall d u q, reach conns u q (S d) ->
  exists p, reach conns u p d /\ In (p, q) conns.
Proof.
  induction d as [| d IH]; intros u q H.
  - inversion H as [| ? c ? ? Hin H']; subst. inversion H'; subst.
    exists u. split; [constructor | exact Hin].
  - inversion H as [| ? c ? ? Hin H']; subst.
    destruct (IH c q H') as (p & Hp & Hpq).
    exists p. split; [eapply reach_next; eassumption | exact Hpq].
Qed.

Lemma reach_snoc : forall u p d q, reach conns u p d -> In (p, q) conns ->
  reach conns u q (S d).
Proof.
  intros u p d q H. induction H as [k | k c p' d Hin H IH]; intros Hpq.
  - eapply reach_next; [exact Hpq | constructor].
  - eapply reach_next; [exact Hin | apply IH, Hpq].
Qed.

Lemma unique_source : forall p p' q, In (p, q) conns -> In (p', q) conns -> p = p'.
Proof.
  clear Hrank. revert Hnd. induction conns as [| [s d] cs IH]; simpl; [tauto |].
  intros Hnd' p p' q H1 H2. inversion Hnd' as [| ? ? Hnotin Hnd'']; subst.
  destruct H1 as [E1 | H1], H2 as [E2 | H2].
  - inversion E1; inversion E2; subst; reflexivity.
  - inversion E1; subst. exfalso. apply Hnotin. apply (in_map snd) in H2. exact H2.
  - inversion E2; subst. exfalso. apply Hnotin. apply (in_map snd) in H1. exact H1.
  - apply (IH Hnd'' p p' q H1 H2).
Qed.

Lemma reach_nested : forall d1 u u' q d2,
  reach conns u q d1 -> reach conns u' q d2 ->
  (exists d, reach conns u u' d) \/ (exists d, reach conns u' u d).
Proof.
  induction d1 as [| d1 IH]; intros u u' q d2 H1 H2.
  - inversion H1; subst. right. exists d2. exact H2.
  - destruct (reach_back d1 u q H1) as (p & Hp & Epq). destruct d2 as [| d2].
    + inversion H2; subst. left. exists (S d1). exact H1.
    + destruct (reach_back d2 u' q H2) as (p' & Hp' & Ep'q).
      rewrite (unique_source p p' q Epq Ep'q) in Hp. exact (IH u u' p' d2 Hp Hp').
Qed.

Lemma siblings_disjoint : forall k c1 c2 q d1 d2,
  In (k, c1) conns -> In (k, c2) conns -> c1 <> c2 ->
  reach conns c1 q d1 -> reach conns c2 q d2 -> False.
Proof.
  assert (Hside : forall k c1 c2 d, In (k, c1) conns -> In (k, c2) conns -> c1 <> c2 ->
                  reach conns c1 c2 d -> False).
  { intros k c1 c2 d E1 E2 Hne H. destruct d as [| d].
    - inversion H; subst. apply Hne; reflexivity.
    - destruct (reach_back d c1 c2 H) as (p & Hp & Epc).
      rewrite (unique_source p k c2 Epc E2) in Hp.
      destruct (reach_rank _ _ _ Hp) as [H1 _]. specialize (Hrank _ _ E1). lia. }
  intros k c1 c2 q d1 d2 E1 E2 Hne H1 H2.
  destruct (reach_nested d1 c1 c2 q d2 H1 H2) as [[d H] | [d H]].
  - exact (Hside k c1 c2 d E1 E2 Hne H).
  - exact (Hside k c2 c1 d E2 E1 (not_eq_sym Hne) H).
Qed.

Lemma children_of_nodup : forall k, NoDup (children_of k conns).
Proof.
  clear Hrank. intros k. revert Hnd. induction conns as [| [s d] cs IH]; simpl; intros Hnd'.
  - constructor.
  - inversion Hnd' as [| ? ? Hnotin Hnd'']; subst.
    destruct (String.eqb s k); [| apply IH, Hnd''].
    constructor; [| apply IH, Hnd''].
    intros Hin. apply Hnotin. apply in_children_of in Hin.
    apply (in_map snd) in Hin. exact Hin.
Qed.

Lemma layout_children_spec : forall (rec : Nodes -> string -> status * Nodes) k L n cs i ns ns',
  (forall c, In c cs -> In (k, c) conns) ->
  NoDup cs ->
  (forall c ns0 ns1, In c cs -> rec ns0 c = (Done, ns1) ->
     (forall q, (forall d, ~ reach conns c q (S d)) -> dict_get q ns1 = dict_get q ns0) /\
     (forall p c' d i', reach conns c p d -> nth_error (children_of p conns) i' = Some c' ->
        placed_at ns1 (S L + d) i' (List.length (children_of p conns)) p c')) ->
  layout_children rec k L n i cs ns = (Done, ns') ->
  (forall q, (forall c d, In c cs -> ~ reach conns c q d) -> dict_get q ns' = dict_get q ns) /\
  (forall j c, nth_error cs j = Some c -> placed_at ns' L (i + j) n k c) /\
  (forall c p c' d i', In c cs -> reach conns c p d ->
     nth_error (children_of p conns) i' = Some c' ->
     placed_at ns' (S L + d) i' (List.length (children_of p conns)) p c').
Proof.
  intros rec k L n cs. induction cs as [| c cs' IH]; intros i ns ns' Hk Hnodup Hrec Hrun.
  - simpl in Hrun. inversion Hrun; subst.
    split; [reflexivity | split].
    + intros j c Hj. destruct j; discriminate Hj.
    + intros c p c' d i' [].
  - simpl in Hrun. unfold lookup_node in Hrun.
    destruct (dict_get c ns) as [child |] eqn:Ec; [| discriminate].
    destruct (dict_get k ns) as [parent |] eqn:Ek; [| discriminate].
    set (ns1 := dict_set c _ ns) in Hrun.
    destruct (rec ns1 c) as [st ns2] eqn:Erec.
    destruct st; simpl in Hrun; try discriminate.
    inversion Hnodup as [| ? ? Hcnot Hnodup']; subst.
    assert (Hkc : In (k, c) conns) by (apply Hk; left; reflexivity).
    assert (Hk' : forall c0, In c0 cs' -> In (k, c0) conns) by (intros; apply Hk; right; auto).
    destruct (IH (S i) ns2 ns' Hk' Hnodup'
                (fun c0 ns0 ns3 Hin => Hrec c0 ns0 ns3 (or_intror Hin)) Hrun)
      as (A' & C1' & C2').
    destruct (Hrec c ns1 ns2 (or_introl eq_refl) Erec) as (Ar & Cr).
    assert (Hk_not : forall c0 d, In (k, c0) conns -> ~ reach conns c0 k d).
    { intros c0 d E H. destruct (reach_rank _ _ _ H) as [H1 _].
      specialize (Hrank _ _ E). lia. }
    assert (Hdisj : forall c0 q d d0, In c0 cs' -> reach conns c q d -> ~ reach conns c0 q d0).
    { intros c0 q d d0 Hin H H0.
      apply (siblings_disjoint k c c0 q d d0 Hkc (Hk' c0 Hin)); auto.
      intros ->. apply Hcnot, Hin. }
    assert (Hkc_ne : k <> c).
    { intros ->. apply (Hk_not c O Hkc). constructor. }
    assert (Gk : dict_get k ns' = Some parent).
    { rewrite A'. rewrite Ar. unfold ns1. rewrite dict_get_set_other by exact Hkc_ne. exact Ek.
      - intros d H. apply (Hk_not c (S d) Hkc H).
      - intros c0 d Hin. apply Hk_not, Hk', Hin. }
    split; [| split].
    + intros q Hq. rewrite A'.
      * rewrite Ar.
        -- unfold ns1. rewrite dict_get_set_other; [reflexivity |].
           intros ->. apply (Hq c O (or_introl eq_refl)). constructor.
        -- intros d H. apply (Hq c (S d) (or_introl eq_refl) H).
      * intros c0 d Hin. apply Hq. right; exact Hin.
    + intros j c0 Hj. destruct j as [| j].
      * simpl in Hj. inversion Hj; subst c0.
        exists parent. eexists. split; [exact Gk | split].
        -- rewrite A'.
           ++ rewrite Ar.
              ** unfold ns1. apply dict_get_set_same.
              ** intros d H. apply (reach_self_zero c d H).
           ++ intros c0 d Hin H. apply (Hdisj c0 c O d Hin (reach_here _ _) H).
        -- rewrite Nat.add_0_r. simpl. repeat split; reflexivity.
      * simpl in Hj. rewrite Nat.add_succ_r. apply (C1' j c0 Hj).
    + intros c0 p c' d i' [<- | Hin] Hp Hc'.
      * apply (placed_at_transport ns' ns2).
        -- apply A'. intros c1 d1 Hin1. apply (Hdisj c1 p d d1 Hin1 Hp).
        -- apply A'. intros c1 d1 Hin1. apply (Hdisj c1 c' (S d) d1 Hin1).
           apply (reach_snoc c p d c' Hp). apply in_children_of.
           eapply nth_error_In. exact Hc'.
        -- apply (Cr p c' d i' Hp Hc').
      * apply (C2' c0 p c' d i' Hin Hp Hc').
Qed.

Lemma layout_level_spec : forall fuel k L ns ns',
  layout_level fuel conns ns k L = (Done, ns') ->
  (forall q, (forall d, ~ reach conns k q (S d)) -> dict_get q ns' = dict_get q ns) /\
  (forall p c d i, reach conns k p d -> nth_error (children_of p conns) i = Some c ->
     placed_at ns' (L + d) i (List.length (children_of p conns)) p c).
Proof.
  induction fuel as [| f IH]; intros k L ns ns' Hrun; simpl in Hrun; [discriminate |].
  destruct (children_of k conns) as [| c0 cs0] eqn:Ech.
  - inversion Hrun; subst. split; [reflexivity |].
    intros p c d i Hp Hc. destruct d as [| d].
    + inversion Hp; subst. rewrite Ech in Hc. destruct i; discriminate Hc.
    + inversion Hp as [| ? c1 ? ? Hin _]; subst.
      apply children_of_in in Hin. rewrite Ech in Hin. destruct Hin.
  - unfold lookup_node in Hrun. destruct (dict_get k ns) as [nk |]; [| discriminate].
    rewrite <- Ech in Hrun.
    destruct (layout_children_spec (fun ns0 c => layout_level f conns ns0 c (S L)) k L
                (List.length (children_of k conns)) (children_of k conns) O ns ns')
      as (A & C1 & C2).
    + intros c Hin. apply in_children_of, Hin.
    + apply children_of_nodup.
    + intros c ns0 ns1 _ H. apply (IH c (S L) ns0 ns1 H).
    + exact Hrun.
    + split.
      * intros q Hq. apply A. intros c d Hin H. apply (Hq d).
        eapply reach_next; [apply in_children_of, Hin | exact H].
      * intros p c d i Hp Hc. destruct d as [| d].
        -- inversion Hp; subst. rewrite Nat.add_0_r. apply (C1 i c Hc).
        -- inversion Hp as [| ? c1 ? ? Hin Hp']; subst.
           rewrite Nat.add_succ_r. apply (C2 c1 p c d i (children_of_in _ _ _ Hin) Hp' Hc).
Qed.

Lemma layout_tree_spec : forall fuel ns ns' rt,
  find_root ns = Some rt -> py_truthy rt = true ->
  layout_tree fuel conns ns = (Done, ns') ->
  (exists n, dict_get rt ns' = Some n /\ x n = 0 /\ y n = 0 /\ z n = 0) /\
  (forall q, q <> rt -> (forall d, ~ reach conns rt q (S d)) ->
     dict_get q ns' = dict_get q ns) /\
  (forall p c d i, reach conns rt p d -> nth_error (children_of p conns) i = Some c ->
     placed_at ns' d i (List.length (children_of p conns)) p c) /\
  moved ns ns'.
Proof.
  intros fuel ns ns' rt Hroot Ht Hrun. unfold layout_tree in Hrun.
  rewrite Hroot, Ht in Hrun. unfold lookup_node in Hrun.
  destruct (dict_get rt ns) as [rn |] eqn:Ern; [| discriminate].
  set (ns1 := dict_set rt (set_position rn 0 0 0) ns) in Hrun.
  pose proof (layout_level_moved fuel conns ns1 rt O) as Hm.
  rewrite Hrun in Hm. simpl in Hm.
  destruct (layout_level_spec fuel rt O ns1 ns' Hrun) as [A C].
  split; [| split; [| split]].
  - exists (set_position rn 0 0 0). rewrite A.
    + unfold ns1. rewrite dict_get_set_same. repeat split; reflexivity.
    + intros d H. apply (reach_self_zero rt d H).
  - intros q Hne Hq. rewrite A by exact Hq. unfold ns1.
    apply dict_get_set_other. exact Hne.
  - intros p c d i Hp Hc. apply (C p c d i Hp Hc).
  - eapply moved_trans; [apply moved_set, Ern | exact Hm].
Qed.

End TreeLayout.

(** The counterexample to C5: on the chain root -> a -> b the layout puts
    [a] 60 below the root but [b] 80 below [a]: the vertical step grows
    with the level ([60 + 20 * level]). *)
Lemma layout_step_not_constant :
  exists ns', layout_tree 3 chain_conns chain_nodes = (Done, ns') /\
    option_map y (dict_get "root" ns') = Some 0 /\
    option_map y (dict_get "a" ns') = Some (-60) /\
    option_map y (dict_get "b" ns') = Some (-140) /\
    0 - (-60) <> -60 - (-140).
Proof.
  eexists. split; [eval_real_free; reflexivity |].
  eval_real_free. simpl.
  split; [reflexivity |]. split; [f_equal; lra |]. split; [f_equal; lra | lra].
Qed.

(** C5 (as amended): for connection sets that are acyclic (they admit a
    ranking [r] with [r src < r dest]) and in which no node is the target
    of two connections, when [_layout_tree] completes from the root [rt]
    (the first node with a null parent, a non-empty id): the root is at the
    origin; every child [c] of a node [p] reached from the root through [L]
    connections, the [i]-th of the [n] children of [p], is at
    [x p + 120/(L+1) * sin(2 pi i/n)], [y p - 60 - 20 L],
    [z p + 120/(L+1) * cos(2 pi i/n)], so the vertical step from level [L]
    is [60 + 20 L]; nodes not reached keep their entry; and a second run
    completes too and changes no entry of the node map. *)
Theorem layout_tree_geometry :
  forall (conns : list (string * string)) (r : string -> nat) (fuel : nat)
         (ns ns' : Nodes) (rt : string),
  (forall s d, In (s, d) conns -> (r s < r d)%nat) ->
  NoDup (map snd conns) ->
  find_root ns = Some rt -> py_truthy rt = true ->
  layout_tree fuel conns ns = (Done, ns') ->
  (exists n, dict_get rt ns' = Some n /\ x n = 0 /\ y n = 0 /\ z n = 0) /\
  (forall p c L i, reach conns rt p L -> nth_error (children_of p conns) i = Some c ->
     placed_at ns' L i (List.length (children_of p conns)) p c) /\
  (forall q, (forall L, ~ reach conns rt q L) -> dict_get q ns' = dict_get q ns) /\
  (exists ns'', layout_tree fuel conns ns' = (Done, ns'') /\
     forall q, dict_get q ns'' = dict_get q ns').
Proof.
  intros conns r fuel ns ns' rt Hrank Hnd Hroot Ht Hrun.
  destruct (layout_tree_spec conns r Hrank Hnd fuel ns ns' rt Hroot Ht Hrun)
    as ((rn & Grn & Hx & Hy & Hz) & A & C & M).
  split; [exists rn; auto |]. split; [exact C |]. split.
  { intros q Hq. apply A.
    - intros ->. apply (Hq O). constructor.
    - intros d. apply Hq. }
  (* the second run *)
  assert (Hroot' : find_root ns' = Some rt) by (rewrite <- (find_root_moved _ _ M); exact Hroot).
  set (ns2 := dict_set rt (set_position rn 0 0 0) ns').
  assert (Hrun2 : fst (layout_level fuel conns ns2 rt O) = Done).
  { unfold layout_tree in Hrun. rewrite Hroot, Ht in Hrun. unfold lookup_node in Hrun.
    destruct (dict_get rt ns) as [rn0 |] eqn:Ern0; [| discriminate].
    transitivity (fst (layout_level fuel conns (dict_set rt (set_position rn0 0 0 0) ns) rt O));
      [| rewrite Hrun; reflexivity].
    apply layout_level_status.
    eapply moved_trans; [apply moved_sym, moved_set, Grn |].
    eapply moved_trans; [apply moved_sym, M |].
    apply moved_set, Ern0. }
  destruct (layout_level fuel conns ns2 rt O) as [st ns''] eqn:E2.
  simpl in Hrun2. subst st.
  assert (Hrun' : layout_tree fuel conns ns' = (Done, ns'')).
  { unfold layout_tree. rewrite Hroot', Ht. unfold lookup_node. rewrite Grn. exact E2. }
  exists ns''. split; [exact Hrun' |].
  destruct (layout_tree_spec conns r Hrank Hnd fuel ns' ns'' rt Hroot' Ht Hrun')
    as ((rn'' & Grn'' & Hx'' & Hy'' & Hz'') & A'' & C'' & M'').
  (* reached nodes: same positions in both maps, by induction on the depth *)
  assert (Hpos : forall d q, reach conns rt q d ->
            exists n' n'', dict_get q ns' = Some n' /\ dict_get q ns'' = Some n'' /\
              x n'' = x n' /\ y n'' = y n' /\ z n'' = z n').
  { induction d as [| d IH]; intros q Hq.
    - inversion Hq; subst. exists rn, rn''. repeat split; congruence.
    - destruct (reach_back conns d rt q Hq) as (p & Hp & Epq).
      apply children_of_in, In_nth_error in Epq as [i Hi].
      destruct (C p q d i Hp Hi) as (np & nq & Gp & Gq & Ex & Ey & Ez).
      destruct (C'' p q d i Hp Hi) as (np2 & nq2 & Gp2 & Gq2 & Ex2 & Ey2 & Ez2).
      destruct (IH p Hp) as (np' & np'' & Gp' & Gp'' & Fx & Fy & Fz).
      rewrite Gp in Gp'. inversion Gp'; subst np'.
      rewrite Gp2 in Gp''. inversion Gp''; subst np''.
      exists nq, nq2. repeat split; auto; congruence. }
  intros q.
  destruct (classic (exists d, reach conns rt q d)) as [[d Hq] | Hq].
  - destruct (Hpos d q Hq) as (n' & n'' & G' & G'' & Ex & Ey & Ez).
    rewrite G', G''. f_equal.
    pose proof (moved_get _ _ q M'') as S. rewrite G', G'' in S. simpl in S.
    apply node_eq_skeleton; [congruence | auto | auto | auto].
  - apply A''.
    + intros ->. apply Hq. exists O. constructor.
    + intros d H. apply Hq. exists (S d). exact H.
Qed.

Lemma layout_tree_geometry_witness :
  exists ns', layout_tree 3 chain_conns chain_nodes = (Done, ns') /\
    placed_at ns' 1 0 1 "a" "b" /\
    exists ns'', layout_tree 3 chain_conns ns' = (Done, ns'') /\
      forall q, dict_get q ns'' = dict_get q ns'.
Proof.
  assert (Hr : forall s d, In (s, d) chain_conns -> (chain_rank s < chain_rank d)%nat).
  { intros s d Hin. simpl in Hin.
    destruct Hin as [E | [E | []]]; inversion E; subst; unfold chain_rank; simpl; lia. }
  assert (Hnd : NoDup (map snd chain_conns)).
  { simpl. constructor; [intros [E | []]; discriminate E | constructor; [intros [] | constructor]]. }
  assert (Hst : fst (layout_tree 3 chain_conns chain_nodes) = Done) by (eval_real_free; reflexivity).
  destruct (layout_tree 3 chain_conns chain_nodes) as [st ns'] eqn:E.
  simpl in Hst. subst st.
  destruct (layout_tree_geometry chain_conns chain_rank 3 chain_nodes ns' "root"
              Hr Hnd eq_refl eq_refl E) as (_ & Hc & _ & Hidem).
  exists ns'. split; [reflexivity | split; [| exact Hidem]].
  apply (Hc "a"%string "b"%string 1%nat O).
  - eapply reach_next; [left; reflexivity | constructor].
  - reflexivity.
Defined.

(** ** Camera controls *)

Ltac split_minmax := unfold Rmax, Rmin in *;
  repeat match goal with
  | |- context[Rle_dec ?a ?b] =>
      lazymatch b with context[Rle_dec _ _] => fail | _ => destruct (Rle_dec a b) end
  end.

Lemma Rmax_Rmin_bounds : forall s, 0.1 <= Rmax 0.1 (Rmin 3 s) <= 3.
Proof. intros s. split_minmax; lra. Qed.

(** [wheelEvent] keeps the zoom within [[0.1, 3]] whatever the wheel
    delta, and changes nothing but the zoom. *)
Theorem wheel_scale_clamped : forall (v : TreeView3D) (delta : Z),
  let v' := wheelEvent v delta in
  0.1 <= scale v' <= 3 /\
  camera_distance v' = camera_distance v /\ rotation_x v' = rotation_x v /\
  rotation_y v' = rotation_y v /\ rotation_z v' = rotation_z v /\
  nodes v' = nodes v /\ connections v' = connections v /\
  selected_node v' = selected_node v /\ hovered_node v' = hovered_node v /\
  mouse_down v' = mouse_down v /\ last_mouse_pos v' = last_mouse_pos v /\
  center_x v' = center_x v /\ center_y v' = center_y v.
Proof.
  intros v delta. simpl. split; [apply Rmax_Rmin_bounds |]. repeat split.
Qed.

(** From a zoom in [[0.1, 3]], a wheel step with a positive delta never
    zooms out, one with a negative delta never zooms in, and a zero delta
    leaves the zoom as it is. *)
Theorem wheel_scale_direction : forall (v : TreeView3D) (delta : Z),
  0.1 <= scale v <= 3 ->
  ((0 <= delta)%Z -> scale v <= scale (wheelEvent v delta)) /\
  ((delta <= 0)%Z -> scale (wheelEvent v delta) <= scale v) /\
  (delta = 0%Z -> scale (wheelEvent v delta) = scale v).
Proof.
  intros v delta Hs. simpl.
  assert (Hp : forall d : Z, (0 <= d)%Z -> scale v <= scale v * (1 + IZR d / 1000)).
  { intros d Hd. apply IZR_le in Hd. simpl in Hd.
    assert (0 <= scale v * (IZR d / 1000)) by (apply Rmult_le_pos; lra). lra. }
  assert (Hn : forall d : Z, (d <= 0)%Z -> scale v * (1 + IZR d / 1000) <= scale v).
  { intros d Hd. apply IZR_le in Hd. simpl in Hd.
    assert (scale v * (IZR d / 1000) <= 0).
    { rewrite <- (Rmult_0_r (scale v)). apply Rmult_le_compat_l; lra. }
    lra. }
  split; [| split].
  - intros Hd. specialize (Hp _ Hd). unfold Rmax, Rmin.
    split_minmax; lra.
  - intros Hd. specialize (Hn _ Hd). unfold Rmax, Rmin.
    split_minmax; lra.
  - intros ->. replace (scale v * (1 + IZR 0 / 1000)) with (scale v) by (simpl; field).
    split_minmax; lra.
Qed.

(** [update_zoom] maps the zoom slider's range [[10, 300]] onto exactly the
    range [[0.1, 3]] that [wheelEvent] clamps to: a slider value [k] gives
    the zoom [k / 100], which a zero wheel step leaves unchanged. *)
Theorem update_zoom_range : forall (v : TreeView3D) (k : Z),
  (10 <= k <= 300)%Z ->
  scale (update_zoom v k) = IZR k / 100 /\ 0.1 <= scale (update_zoom v k) <= 3 /\
  wheelEvent (update_zoom v k) 0 = update_zoom v k.
Proof.
  intros v k [H1 H2]. apply IZR_le in H1. apply IZR_le in H2.
  assert (B : 0.1 <= IZR k / 100 <= 3) by (split; unfold Rdiv; lra).
  simpl. split; [reflexivity | split; [exact B |]].
  unfold wheelEvent, update_zoom, with_camera; simpl.
  replace (IZR k / 100 * (1 + 0 / 1000)) with (IZR k / 100) by field.
  replace (Rmax 0.1 (Rmin 3 (IZR k / 100))) with (IZR k / 100); [reflexivity |].
  split_minmax; lra.
Qed.

(** [update_rotation] maps the rotation sliders' range [[-100, 100]] onto
    angles in [[-pi, pi]], and changes neither the zoom nor the Z
    rotation. *)
Theorem update_rotation_range : forall (v : TreeView3D) (kx ky : Z),
  (-100 <= kx <= 100)%Z -> (-100 <= ky <= 100)%Z ->
  let v' := update_rotation v kx ky in
  - PI <= rotation_x v' <= PI /\ - PI <= rotation_y v' <= PI /\
  rotation_z v' = rotation_z v /\ scale v' = scale v /\
  camera_distance v' = camera_distance v.
Proof.
  intros v kx ky [Hx1 Hx2] [Hy1 Hy2]. simpl.
  apply IZR_le in Hx1, Hx2, Hy1, Hy2. pose proof PI_RGT_0.
  assert (G : forall k, -100 <= k <= 100 -> - PI <= k / 100 * PI <= PI).
  { intros k Hk. split.
    - replace (- PI) with (-1 * PI) by ring. apply Rmult_le_compat_r; lra.
    - replace PI with (1 * PI) at 2 by ring. apply Rmult_le_compat_r; lra. }
  split; [apply G; lra | split; [apply G; lra | repeat split]].
Qed.

(** After [reset_view] (rotations 0, zoom 1, camera distance 500) a point
    [(x, y, z)] is projected without rotation, by the perspective division
    [1000 / (z + 500)]: to [(cx + x * 1000 / (z + 500), cy + y * 1000 / (z + 500))]
    when [z > -500], and to the viewport center otherwise.  The node map,
    the connections and the selection are kept. *)
Theorem reset_view_projection : forall (v : TreeView3D) (x0 y0 z0 : R),
  project_point (reset_view v) x0 y0 z0 =
    (if Rle_dec (z0 + 500) 0 then (center_x v, center_y v)
     else (x0 * (1000 / (z0 + 500)) + center_x v,
           y0 * (1000 / (z0 + 500)) + center_y v)) /\
  nodes (reset_view v) = nodes v /\ connections (reset_view v) = connections v /\
  selected_node (reset_view v) = selected_node v.
Proof.
  intros v x0 y0 z0. split; [| repeat split].
  unfold project_point, reset_view, with_camera; simpl. rewrite cos_0, sin_0.
  match goal with |- (if Rle_dec ?a 0 then _ else _) = _ =>
    replace a with (z0 + 500) by ring end.
  destruct (Rle_dec (z0 + 500) 0); [reflexivity |].
  f_equal; ring.
Qed.

(** ** Pointer moves *)




Lemma last_cons_default : forall {A} (p : A) l d, last (p :: l) d = last l p.
Proof.
  intros A p l. revert p. induction l as [| q l IH]; intros p d; [reflexivity |].
  change (last (q :: l) d = last (q :: l) p).
  rewrite !IH. reflexivity.
Qed.

(** With the button held and no node dragging, a sequence of pointer moves
    rotates the camera by the total pointer travel: [rotation_y] grows by
    [0.01] per pixel of horizontal travel and [rotation_x] by [0.01] per
    pixel of vertical travel, from the last recorded position to the final
    one, whatever the path.  Nodes, zoom and camera distance are unchanged
    and the final pointer position is recorded. *)
Theorem rotate_moves_telescope : forall (ps : list (Z * Z)) (v : TreeView3D),
  mouse_down v = true -> dragging_node v = None ->
  exists v', run_moves v ps = Ok v' /\
    rotation_y v' = rotation_y v +
      IZR (fst (last ps (last_mouse_pos v)) - fst (last_mouse_pos v)) * 0.01 /\
    rotation_x v' = rotation_x v +
      IZR (snd (last ps (last_mouse_pos v)) - snd (last_mouse_pos v)) * 0.01 /\
    last_mouse_pos v' = last ps (last_mouse_pos v) /\
    nodes v' = nodes v /\ scale v' = scale v /\
    camera_distance v' = camera_distance v /\ mouse_down v' = true.
Proof.
  induction ps as [| p ps IH]; intros v Hd Hn.
  - exists v. simpl. rewrite !Z.sub_diag. repeat split; try ring; assumption.
  - simpl run_moves. unfold mouseMoveEvent at 1. rewrite Hd, Hn. simpl bind.
    set (v1 := with_mouse (with_rotation v _ _) _ (fst p, snd p)).
    destruct (IH v1) as (v' & Hr & Hy & Hx & Hl & Hns & Hs & Hc & Hm);
      [exact Hd | exact Hn |].
    exists v'. rewrite last_cons_default.
    replace (last_mouse_pos v1) with p in * by (destruct p; reflexivity).
    rewrite Hr, Hy, Hx, Hl, Hns, Hs, Hc, Hm. simpl.
    rewrite !minus_IZR. repeat split; ring.
Qed.

(** ** Hit testing *)

Lemma node_hit_err : forall v ex ey n e,
  node_hit v ex ey n = Err e ->
  e = ZeroDivisionError /\ z n + camera_distance v + 800 = 0.
Proof.
  intros v ex ey n e H. unfold node_hit, pydiv in H.
  destruct (Req_dec_T (z n + camera_distance v + 800) 0) as [E |]; simpl in H;
    [injection H as <-; split; [reflexivity | exact E] | discriminate].
Qed.

Lemma node_hit_defined : forall v ex ey n,
  z n + camera_distance v + 800 <> 0 -> exists b, node_hit v ex ey n = Ok b.
Proof.
  intros v ex ey n H. unfold node_hit. rewrite pydiv_ok by exact H. eexists; reflexivity.
Qed.

Lemma in_hit_order : forall v n, In n (hit_order v) -> exists k, In (k, n) (nodes v).
Proof.
  intros v n H. unfold hit_order in H.
  apply (Permutation_in _ (sorted_by_perm (depth_key v) _)) in H.
  unfold dict_values in H. apply in_map_iff in H as ([k n'] & E & Hin).
  simpl in E. subst n'. exists k. exact Hin.
Qed.

Lemma in_hit_order_rev : forall v k n, In (k, n) (nodes v) -> In n (hit_order v).
Proof.
  intros v k n H. unfold hit_order.
  apply (Permutation_in _ (Permutation_sym (sorted_by_perm (depth_key v) _))).
  unfold dict_values. apply in_map_iff. exists (k, n). split; [reflexivity | exact H].
Qed.

Lemma first_hit_outcomes : forall v ex ey l,
  (forall id, first_hit v ex ey l = Ok (Some id) ->
     exists n, In n l /\ node_id n = id /\ node_hit v ex ey n = Ok true) /\
  (first_hit v ex ey l = Ok None -> forall n, In n l -> node_hit v ex ey n = Ok false) /\
  (forall e, first_hit v ex ey l = Err e -> exists n, In n l /\ node_hit v ex ey n = Err e) /\
  first_hit v ex ey l <> OutOfFuel.
Proof.
  intros v ex ey l. induction l as [| a l (IH1 & IH2 & IH3 & IH4)]; simpl.
  - repeat split; intros; try discriminate; contradiction.
  - destruct (node_hit v ex ey a) as [b | e |] eqn:Ha; simpl.
    + destruct b.
      * split; [| split; [| split]]; try (intros; discriminate).
        intros id H. injection H as <-.
        exists a. split; [left; reflexivity | split; [reflexivity | exact Ha]].
      * split; [| split; [| split]].
        -- intros id H. destruct (IH1 id H) as (n & Hn & Hid & Hh).
           exists n. split; [right; exact Hn | split; assumption].
        -- intros H n [<- | Hn]; [exact Ha | exact (IH2 H n Hn)].
        -- intros e H. destruct (IH3 e H) as (n & Hn & Hh). exists n. split; [right |]; assumption.
        -- exact IH4.
    + split; [| split; [| split]]; try (intros; discriminate).
      intros e' H. injection H as <-. exists a. split; [left; reflexivity | exact Ha].
    + exfalso. revert Ha. unfold node_hit, pydiv. destruct (Req_dec_T _ _); simpl; discriminate.
Qed.

(** [_find_node_at_position] either returns the [node_id] of a node of the
    map whose projected rectangle contains the pointer, or [None] when no
    node's rectangle does; it raises nothing but [ZeroDivisionError], and
    that only when some node lies at [z = -(camera_distance + 800)]. *)
Theorem find_node_at_position_outcomes : forall (v : TreeView3D) (ex ey : Z),
  (forall id, find_node_at_position v ex ey = Ok (Some id) ->
     exists k n, In (k, n) (nodes v) /\ node_id n = id /\
                 node_hit v (IZR ex) (IZR ey) n = Ok true) /\
  (find_node_at_position v ex ey = Ok None ->
     forall k n, In (k, n) (nodes v) -> node_hit v (IZR ex) (IZR ey) n = Ok false) /\
  (forall e, find_node_at_position v ex ey = Err e ->
     e = ZeroDivisionError /\
     exists k n, In (k, n) (nodes v) /\ z n + camera_distance v + 800 = 0) /\
  find_node_at_position v ex ey <> OutOfFuel.
Proof.
  intros v ex ey. unfold find_node_at_position.
  destruct (first_hit_outcomes v (IZR ex) (IZR ey) (hit_order v)) as (H1 & H2 & H3 & H4).
  split; [| split; [| split]].
  - intros id H. destruct (H1 id H) as (n & Hn & Hid & Hh).
    destruct (in_hit_order v n Hn) as [k Hk]. exists k, n. auto.
  - intros H k n Hk. apply H2; [exact H | exact (in_hit_order_rev v k n Hk)].
  - intros e H. destruct (H3 e H) as (n & Hn & Hh).
    destruct (node_hit_err _ _ _ _ _ Hh) as [-> Hz].
    destruct (in_hit_order v n Hn) as [k Hk].
    split; [reflexivity | exists k, n; auto].
  - exact H4.
Qed.

Lemma py_int_bounds : forall r, r - 1 < py_int r < r + 1.
Proof.
  intros r. unfold py_int. destruct (Rle_dec 0 r).
  - destruct (base_Int_part r). lra.
  - destruct (base_Int_part (- r)). lra.
Qed.

Lemma Rabs_le_bounds : forall r a, Rabs r <= a -> - a <= r <= a.
Proof. intros r a. unfold Rabs. destruct (Rcase_abs r); lra. Qed.

Lemma node_hit_inside : forall v ex ey n,
  z n + camera_distance v + 800 <> 0 ->
  let w := width n * (800 / (z n + camera_distance v + 800)) * scale v in
  let h := height n * (800 / (z n + camera_distance v + 800)) * scale v in
  Rabs (ex - px n) <= w / 2 - 1 -> Rabs (ey - py n) <= h / 2 - 1 ->
  node_hit v ex ey n = Ok true.
Proof.
  intros v ex ey n Hz w h Hx Hy. unfold node_hit. rewrite pydiv_ok by exact Hz.
  simpl. fold w h.
  pose proof (py_int_bounds (px n - w / 2)). pose proof (py_int_bounds (py n - h / 2)).
  apply Rabs_le_bounds in Hx, Hy.
  rewrite !Rleb_true by lra. reflexivity.
Qed.

Lemma first_hit_sorted : forall v ex ey l n,
  Sorted (fun u w => depth_key v u <= depth_key v w) l ->
  (forall m, In m l -> z m + camera_distance v + 800 <> 0) ->
  In n l -> node_hit v ex ey n = Ok true ->
  exists m, In m l /\ first_hit v ex ey l = Ok (Some (node_id m)) /\
            node_hit v ex ey m = Ok true /\ depth_key v m <= depth_key v n.
Proof.
  intros v ex ey l n. induction l as [| a l IH]; intros Hs Hz Hn Hh; [contradiction |].
  simpl. destruct (node_hit_defined v ex ey a (Hz a (or_introl eq_refl))) as [b Ha].
  rewrite Ha. simpl. destruct b.
  - exists a. split; [left; reflexivity | split; [reflexivity | split; [exact Ha |]]].
    destruct Hn as [-> | Hn]; [lra |].
    apply Sorted_StronglySorted in Hs; [| intros u w t; lra].
    apply StronglySorted_inv in Hs as [_ Hf]. rewrite Forall_forall in Hf. exact (Hf n Hn).
  - destruct Hn as [-> | Hn]; [congruence |].
    destruct (IH (proj1 (Sorted_inv Hs)) (fun m Hm => Hz m (or_intror Hm)) Hn Hh)
      as (m & Hm & Hf & Hmh & Hk).
    exists m. split; [right; exact Hm | auto].
Qed.

(** When no node lies at the singular depth [z = -(camera_distance + 800)],
    a pointer at least one pixel inside the projected rectangle of a node
    [n] always finds a node: one whose rectangle contains the pointer and
    which is no farther from the camera than [n] (the nearest such nodes
    are tested first). *)
Theorem hit_test_finds_covering_node :
  forall (v : TreeView3D) (ex ey : Z) (k : string) (n : TreeNode3D),
  In (k, n) (nodes v) ->
  (forall k' m, In (k', m) (nodes v) -> z m + camera_distance v + 800 <> 0) ->
  Rabs (IZR ex - px n) <= width n * (800 / (z n + camera_distance v + 800)) * scale v / 2 - 1 ->
  Rabs (IZR ey - py n) <= height n * (800 / (z n + camera_distance v + 800)) * scale v / 2 - 1 ->
  exists k' m, In (k', m) (nodes v) /\
    find_node_at_position v ex ey = Ok (Some (node_id m)) /\
    node_hit v (IZR ex) (IZR ey) m = Ok true /\ depth_key v m <= depth_key v n.
Proof.
  intros v ex ey k n Hk Hz Hx Hy.
  assert (Hh : node_hit v (IZR ex) (IZR ey) n = Ok true)
    by (apply node_hit_inside; [exact (Hz k n Hk) | exact Hx | exact Hy]).
  destruct (first_hit_sorted v (IZR ex) (IZR ey) (hit_order v) n
              (sorted_by_sorted (depth_key v) _)) as (m & Hm & Hf & Hmh & Hd).
  - intros m Hm. destruct (in_hit_order v m Hm) as [k' Hk']. exact (Hz k' m Hk').
  - exact (in_hit_order_rev v k n Hk).
  - exact Hh.
  - destruct (in_hit_order v m Hm) as [k' Hk']. exists k', m. auto.
Qed.

(** ** Frames of the press and drag handlers *)

Lemma existsb_key : forall {V} k (val : V) d,
  dict_get k d = Some val -> existsb (String.eqb k) (map fst d) = true.
Proof.
  intros V k val d H. apply existsb_exists. exists k.
  split; [| apply String.eqb_refl].
  apply in_map_iff. exists (k, val). split; [reflexivity | exact (dict_get_in _ _ _ H)].
Qed.

Lemma keys_dict_set_existing : forall {V} k (val val' : V) d,
  dict_get k d = Some val -> map fst (dict_set k val' d) = map fst d.
Proof.
  intros V k val val' d H. rewrite keys_dict_set, (existsb_key k val d H). reflexivity.
Qed.

(** A pointer press that returns moves no node and adds or removes none:
    every key keeps its node's position; it changes neither the camera,
    the connections nor the hover, sets [mouse_down] and records the press
    position. *)
Theorem press_frame : forall (v v' : TreeView3D) (ex ey : Z),
  mousePressEvent v ex ey = Ok v' ->
  mouse_down v' = true /\ last_mouse_pos v' = (ex, ey) /\
  hovered_node v' = hovered_node v /\
  camera_distance v' = camera_distance v /\ rotation_x v' = rotation_x v /\
  rotation_y v' = rotation_y v /\ rotation_z v' = rotation_z v /\
  scale v' = scale v /\ connections v' = connections v /\
  map fst (nodes v') = map fst (nodes v) /\
  forall k, option_map (fun n => (x n, y n, z n)) (dict_get k (nodes v')) =
            option_map (fun n => (x n, y n, z n)) (dict_get k (nodes v)).
Proof.
  intros v v' ex ey H. unfold mousePressEvent in H.
  destruct (find_node_at_position _ ex ey) as [sel | e |]; simpl in H; try discriminate.
  destruct (negb _); [| injection H as <-; repeat split].
  destruct sel as [id |]; [| injection H as <-; repeat split].
  destruct (py_truthy id); [| injection H as <-; repeat split].
  simpl in H. destruct (dict_get id (nodes v)) as [n |] eqn:Hg;
    [| injection H as <-; repeat split].
  injection H as <-. simpl. do 9 (split; [reflexivity |]).
  split; [exact (keys_dict_set_existing id n _ _ Hg) |].
  intros k. destruct (String.eqb k id) eqn:E.
  - apply String.eqb_eq in E. subst k. rewrite dict_get_set_same, Hg. reflexivity.
  - rewrite dict_get_set_other; [reflexivity |].
    intros ->. rewrite String.eqb_refl in E. discriminate.
Qed.

Lemma dragging_node_inv : forall v id n,
  dragging_node v = Some (id, n) ->
  selected_node v = Some id /\ dict_get id (nodes v) = Some n /\ dragging n = true.
Proof.
  intros v id n H. unfold dragging_node in H.
  destruct (selected_node v) as [s |]; [| discriminate].
  destruct (py_truthy s); [| discriminate].
  destruct (dict_get s (nodes v)) as [m |] eqn:Hg; [| discriminate].
  destruct (dragging m) eqn:Hd; [| discriminate].
  injection H as <- <-. auto.
Qed.

(** A pointer move during a drag touches only the dragged node: every
    other key keeps its node, no key is added or removed, the camera, the
    connections and the selection are kept, and the dragged node keeps its
    drag anchor and its [dragging] flag. *)
Theorem drag_move_frame : forall (v v' : TreeView3D) (ex ey : Z) (id : string) (n : TreeNode3D),
  mouse_down v = true -> dragging_node v = Some (id, n) ->
  mouseMoveEvent v ex ey = Ok v' ->
  camera_distance v' = camera_distance v /\ rotation_x v' = rotation_x v /\
  rotation_y v' = rotation_y v /\ rotation_z v' = rotation_z v /\
  scale v' = scale v /\ connections v' = connections v /\
  selected_node v' = selected_node v /\ mouse_down v' = true /\
  last_mouse_pos v' = (ex, ey) /\
  map fst (nodes v') = map fst (nodes v) /\
  (forall k, k <> id -> dict_get k (nodes v') = dict_get k (nodes v)) /\
  exists n', dict_get id (nodes v') = Some n' /\ dragging n' = true /\
    orig_x n' = orig_x n /\ orig_y n' = orig_y n /\ orig_z n' = orig_z n.
Proof.
  intros v v' ex ey id n Hmd Hdn H.
  destruct (dragging_node_inv v id n Hdn) as (Hs & Hg & Hd).
  unfold mouseMoveEvent in H. rewrite Hmd, Hdn in H.
  destruct (drag_world_offset v n _ _) as [off | e |]; simpl in H; try discriminate.
  injection H as <-. simpl. do 9 (split; [reflexivity || exact Hmd |]).
  split; [exact (keys_dict_set_existing id n _ _ Hg) |].
  split; [intros k Hk; apply dict_get_set_other; exact Hk |].
  rewrite dict_get_set_same. eexists. split; [reflexivity |].
  simpl. repeat split; assumption.
Qed.

(** ** Opacity *)

Lemma Int_part_mono : forall a b, a <= b -> IZR (Int_part a) <= IZR (Int_part b).
Proof.
  intros a b H. destruct (base_Int_part a). destruct (base_Int_part b).
  apply IZR_le.
  assert (L : (Int_part a < Int_part b + 1)%Z) by (apply lt_IZR; rewrite plus_IZR; simpl; lra).
  lia.
Qed.

Lemma py_int_mono : forall a b, 0 <= a <= b -> py_int a <= py_int b.
Proof.
  intros a b [Ha Hb]. unfold py_int.
  destruct (Rle_dec 0 a); [| lra]. destruct (Rle_dec 0 b); [| lra].
  apply Int_part_mono. exact Hb.
Qed.

Lemma div_800_anti : forall a b, 0 < a <= b -> 800 / b <= 800 / a.
Proof.
  intros a b [Ha Hb]. unfold Rdiv. apply Rmult_le_compat_l; [lra |].
  apply Rinv_le_contravar; lra.
Qed.

(** The opacity [paintEvent] draws a node with: [ZeroDivisionError] for a
    node at [z = -(camera_distance + 800)], otherwise a value in
    [[50, 255]]: the full 255 from the camera plane ([z + camera_distance <= 0])
    up to the singular depth, the minimum 50 beyond it, and in front of it
    never higher for a node farther from the camera. *)
Theorem node_opacity_spec : forall (v : TreeView3D) (n : TreeNode3D),
  (z n + camera_distance v + 800 = 0 -> node_opacity v n = Err ZeroDivisionError) /\
  (z n + camera_distance v + 800 <> 0 ->
     exists o, node_opacity v n = Ok o /\ 50 <= o <= 255) /\
  (-800 < z n + camera_distance v <= 0 -> node_opacity v n = Ok 255) /\
  (z n + camera_distance v + 800 < 0 -> node_opacity v n = Ok 50) /\
  (forall m, 0 < z n + camera_distance v + 800 <= z m + camera_distance v + 800 ->
     exists o1 o2, node_opacity v n = Ok o1 /\ node_opacity v m = Ok o2 /\ o2 <= o1).
Proof.
  intros v n. split; [| split; [| split; [| split]]].
  - intros H. unfold node_opacity, pydiv.
    destruct (Req_dec_T _ 0); [reflexivity | contradiction].
  - intros H. unfold node_opacity. rewrite pydiv_ok by exact H. simpl.
    eexists. split; [reflexivity |]. split_minmax; lra.
  - intros H. unfold node_opacity. rewrite pydiv_ok by lra. simpl.
    assert (Hz : 1 <= 800 / (z n + camera_distance v + 800)).
    { replace 1 with (800 / 800) by field. apply div_800_anti. lra. }
    assert (Hp : 255 <= py_int (255 * (800 / (z n + camera_distance v + 800)))).
    { rewrite <- (py_int_of 255 255) at 1 by lra. apply py_int_mono. lra. }
    f_equal. split_minmax; lra.
  - intros H. unfold node_opacity. rewrite pydiv_ok by lra. simpl.
    assert (Hi : / (z n + camera_distance v + 800) < 0) by (apply Rinv_lt_0_compat; lra).
    pose proof (py_int_bounds (255 * (800 / (z n + camera_distance v + 800)))) as Hb.
    unfold Rdiv in Hb. f_equal. split_minmax; lra.
  - intros m Hm. unfold node_opacity. rewrite !pydiv_ok by lra. simpl.
    eexists; eexists. split; [reflexivity | split; [reflexivity |]].
    pose proof (div_800_anti _ _ Hm) as Hd.
    assert (H0 : 0 < 800 / (z m + camera_distance v + 800))
      by (apply Rdiv_lt_0_compat; lra).
    assert (Hp : py_int (255 * (800 / (z m + camera_distance v + 800))) <=
                 py_int (255 * (800 / (z n + camera_distance v + 800))))
      by (apply py_int_mono; lra).
    split_minmax; lra.
Qed.

(** ** Highlighting *)

Lemma set_add_in : forall s hs q, In q (set_add s hs) <-> In q hs \/ q = s.
Proof.
  intros s hs q. unfold set_add. destruct (existsb (String.eqb s) hs) eqn:E.
  - apply existsb_exists in E as (t & Ht & Et). apply String.eqb_eq in Et. subst t.
    split; [tauto | intros [H | ->]; assumption].
  - rewrite in_app_iff. simpl. split.
    + intros [H | [H | []]]; [left; exact H | right; symmetry; exact H].
    + intros [H | ->]; [left; exact H | right; left; reflexivity].
Qed.

Lemma set_add_nodup : forall s hs, NoDup hs -> NoDup (set_add s hs).
Proof.
  intros s hs H. unfold set_add. destruct (existsb (String.eqb s) hs) eqn:E; [exact H |].
  apply (Permutation_NoDup (Permutation_cons_append hs s)). constructor; [| exact H].
  intros Hin. assert (existsb (String.eqb s) hs = true) as C
    by (apply existsb_exists; exists s; split; [exact Hin | apply String.eqb_refl]).
  congruence.
Qed.

Lemma reach_zero : forall conns d q, reach conns d q O -> q = d.
Proof. intros conns d q H. inversion H; reflexivity. Qed.

Lemma add_children_loop_spec :
  forall (rec : list string -> string -> outcome (list string)) conns k cs,
  (forall d hs, In (k, d) cs -> exists hs', rec hs d = Ok hs' /\
     (NoDup hs -> NoDup hs') /\
     forall q, In q hs' <-> In q hs \/ exists D, reach conns d q (S D)) ->
  forall hs, exists hs', add_children_loop rec k cs hs = Ok hs' /\
    (NoDup hs -> NoDup hs') /\
    forall q, In q hs' <-> In q hs \/ exists d D, In (k, d) cs /\ reach conns d q D.
Proof.
  intros rec conns k cs. induction cs as [| [s d] cs IH]; intros Hrec hs; simpl.
  - exists hs. split; [reflexivity | split; [tauto |]].
    intros q. split; [tauto | intros [H | (d & D & [] & _)]; exact H].
  - assert (Hrec' : forall d' hs', In (k, d') cs -> exists hs'', rec hs' d' = Ok hs'' /\
              (NoDup hs' -> NoDup hs'') /\
              forall q, In q hs'' <-> In q hs' \/ exists D, reach conns d' q (S D))
      by (intros d' hs' Hin; apply Hrec; right; exact Hin).
    destruct (String.eqb s k) eqn:E.
    + apply String.eqb_eq in E. subst s.
      destruct (Hrec d (set_add d hs) (or_introl eq_refl)) as (hs2 & Hr & Hn2 & Hm2).
      rewrite Hr. simpl.
      destruct (IH Hrec' hs2) as (hs' & Hl & Hn' & Hm').
      exists hs'. split; [exact Hl | split].
      * intros Hn. apply Hn', Hn2, set_add_nodup, Hn.
      * intros q. rewrite Hm', Hm2, set_add_in. split.
        -- intros [[[H | ->] | (D & HD)] | (d' & D & Hin & HD)].
           ++ left; exact H.
           ++ right. exists d, O. split; [left; reflexivity | constructor].
           ++ right. exists d, (S D). split; [left; reflexivity | exact HD].
           ++ right. exists d', D. split; [right; exact Hin | exact HD].
        -- intros [H | (d' & D & [Ee | Hin] & HD)].
           ++ left; left; left; exact H.
           ++ injection Ee as <-. destruct D as [| D].
              ** apply reach_zero in HD. left; left; right; exact HD.
              ** left; right; exists D; exact HD.
           ++ right. exists d', D. split; assumption.
    + destruct (IH Hrec' hs) as (hs' & Hl & Hn' & Hm').
      exists hs'. split; [exact Hl | split; [exact Hn' |]].
      intros q. rewrite Hm'. split.
      * intros [H | (d' & D & Hin & HD)]; [left; exact H |].
        right. exists d', D. split; [right; exact Hin | exact HD].
      * intros [H | (d' & D & [Ee | Hin] & HD)]; [left; exact H | |].
        -- injection Ee as -> _. rewrite String.eqb_refl in E. discriminate.
        -- right. exists d', D. split; assumption.
Qed.

Lemma add_children_recursive_spec : forall conns (r : string -> nat) B,
  (forall s d, In (s, d) conns -> (r s < r d <= B)%nat) ->
  forall fuel k, (B - r k < fuel)%nat ->
  forall hs, exists hs', add_children_recursive fuel conns k hs = Ok hs' /\
    (NoDup hs -> NoDup hs') /\
    forall q, In q hs' <-> In q hs \/ exists D, reach conns k q (S D).
Proof.
  intros conns r B Hrank. induction fuel as [| f IH]; intros k Hk hs; [lia |].
  simpl.
  destruct (add_children_loop_spec (fun hs' d => add_children_recursive f conns d hs')
              conns k conns) with (hs := hs) as (hs' & Hl & Hn & Hm).
  - intros d hs0 Hin. apply IH. specialize (Hrank _ _ Hin). lia.
  - exists hs'. split; [exact Hl | split; [exact Hn |]].
    intros q. rewrite Hm. split.
    + intros [H | (d & D & Hin & HD)]; [left; exact H |].
      right. exists D. eapply reach_next; eassumption.
    + intros [H | (D & HD)]; [left; exact H |].
      inversion HD as [| ? c ? ? Hin HD']; subst.
      right. exists c, D. split; assumption.
Qed.

(** For acyclic connections (ranked by [r] with [r src < r dest <= B]) and
    enough recursion depth, the highlighted set [paintEvent] builds for a
    selected node [s] holds, without repetition, exactly [s] and the nodes
    reachable from [s] by following one or more connections. *)
Theorem highlighted_nodes_spec :
  forall (fuel : nat) (v : TreeView3D) (r : string -> nat) (B : nat) (s : string),
  (forall a b, In (a, b) (connections v) -> (r a < r b <= B)%nat) ->
  selected_node v = Some s -> py_truthy s = true -> (B - r s < fuel)%nat ->
  exists hs, highlighted_nodes fuel v = Ok hs /\ NoDup hs /\
    forall q, In q hs <-> q = s \/ exists D, reach (connections v) s q (S D).
Proof.
  intros fuel v r B s Hrank Hs Ht Hf. unfold highlighted_nodes. rewrite Hs, Ht.
  destruct (add_children_recursive_spec (connections v) r B Hrank fuel s Hf (set_add s []))
    as (hs & Hl & Hn & Hm).
  exists hs. split; [exact Hl | split].
  - apply Hn. unfold set_add. simpl. repeat constructor. intros [].
  - intros q. rewrite Hm, set_add_in. simpl. tauto.
Qed.

(** ** Loading and the demo *)

Lemma layout_tree_moved : forall fuel conns ns, moved ns (snd (layout_tree fuel conns ns)).
Proof.
  intros fuel conns ns. unfold layout_tree.
  destruct (find_root ns) as [rt |]; [| apply moved_refl].
  destruct (py_truthy rt); [| apply moved_refl].
  unfold lookup_node. destruct (dict_get rt ns) as [rn |] eqn:E; [| apply moved_refl].
  eapply moved_trans; [apply (moved_set ns rt rn 0 0 0 E) | apply layout_level_moved].
Qed.

Lemma moved_mem : forall a b q, moved a b -> dict_mem q a = dict_mem q b.
Proof.
  intros a b q H. pose proof (moved_get a b q H) as G. unfold dict_mem.
  destruct (dict_get q a), (dict_get q b); simpl in G; congruence.
Qed.

Lemma fold_left_inv : forall {A B} (P : A -> Prop) (f : A -> B -> A) l a,
  P a -> (forall a b, P a -> P (f a b)) -> P (fold_left f l a).
Proof.
  intros A B P f l. induction l as [| b l IH]; intros a Ha Hf; simpl; [exact Ha |].
  apply IH; [apply Hf, Ha | exact Hf].
Qed.

Lemma create_tree_from_data_mem : forall draw data p level b q,
  dict_mem q (b_nodes b) = true ->
  dict_mem q (b_nodes (create_tree_from_data draw data p level b)) = true.
Proof.
  intros draw data. induction data as [| items IHitems] using PyValue_ind'.
  - intros p level b q Hq. exact Hq.
  - intros p level b q Hq. simpl. generalize O as i. revert b Hq.
    induction items as [| [key value] es IH]; intros b Hq i; [exact Hq |].
    inversion IHitems as [| ? ? Hval Hes]; subst. simpl in Hval.
    apply IH; [exact Hes |].
    match goal with |- context[add_node draw b key ?nid ?pp ?pos] =>
      assert (H1 : dict_mem q (b_nodes (add_node draw b key nid pp pos)) = true)
        by (apply add_node_mem; exact Hq);
      set (b1 := add_node draw b key nid pp pos) in * end.
    assert (H2 : forall b2, b_nodes b2 = b_nodes b1 -> dict_mem q (b_nodes b2) = true)
      by (intros b2 E; rewrite E; exact H1).
    destruct value as [sub |].
    + apply Hval. apply H2. destruct p as [s |]; [destruct (py_truthy s) |]; reflexivity.
    + apply H2. destruct p as [s |]; [destruct (py_truthy s) |]; reflexivity.
Qed.

Lemma load_structure_mem : forall draw cl b q,
  dict_mem q (b_nodes b) = true ->
  dict_mem q (b_nodes (fst (load_structure draw cl b))) = true.
Proof.
  intros draw cl b q Hq. unfold load_structure. cbv zeta.
  match goal with |- context[fold_left ?f cl ?a] =>
    pose proof (fold_left_inv (fun acc : Build * list (string * PyValue) * nat =>
                  dict_mem q (b_nodes (fst (fst acc))) = true) f cl a Hq) as Hf;
    destruct (fold_left f cl a) as [[b' cats] i]; simpl; apply Hf end.
  intros [[b0 cats0] i0] node H0. simpl in H0 |- *.
  assert (H1 : forall t nid, dict_mem q (b_nodes (connect (add_node draw b0 t nid
                 (Some "root"%string) None) "root" nid)) = true)
    by (intros; apply add_node_mem; exact H0).
  destruct (m_children node) as [children |]; [| apply H1].
  match goal with |- context[fold_left ?g children ?c] =>
    pose proof (fold_left_inv (fun acc : Build * list (string * PyValue) * nat =>
                  dict_mem q (b_nodes (fst (fst acc))) = true) g children c) as Hg;
    destruct (fold_left g children c) as [[b2 cats2] j]; simpl; apply Hg end.
  - apply H1.
  - intros [[b3 cats3] j3] child H3. simpl in H3 |- *. apply dict_mem_set_mono. exact H3.
Qed.

Lemma create_demo_tree_root : forall draw v,
  exists v', create_demo_tree draw v = Ok v' /\ dict_mem "root" (nodes v') = true /\
    selected_node v' = selected_node v /\ hovered_node v' = hovered_node v.
Proof.
  intros draw v. eexists. split; [eval_real_free; reflexivity |].
  split; [eval_real_free; reflexivity | split; reflexivity].
Qed.

(** [ThreeDViewWidget.load_tree] always ends with the default camera
    (rotations 0, zoom 1, camera distance 500) and a node map holding the
    [root] node, whether the model loads or the demo replaces it; it keeps
    the selection and the hover, and it raises nothing. *)
Theorem load_tree_resets_view :
  forall (draw draw' : nat -> Cosmetic) (fuel : nat) (model : TreeModel) (v : TreeView3D),
  exists v', load_tree draw draw' fuel model v = Ok v' /\
    camera_distance v' = 500 /\ rotation_x v' = 0 /\ rotation_y v' = 0 /\
    rotation_z v' = 0 /\ scale v' = 1 /\
    dict_mem "root" (nodes v') = true /\
    selected_node v' = selected_node v /\ hovered_node v' = hovered_node v.
Proof.
  intros draw draw' fuel model v. unfold load_tree.
  destruct (load_tree_from_model draw fuel model v) as [v1 ok] eqn:E.
  assert (Hsel : selected_node v1 = selected_node v /\ hovered_node v1 = hovered_node v).
  { unfold load_tree_from_model in E.
    destruct model; [injection E as <- _; split; reflexivity | |];
      destruct (layout_tree _ _ _); injection E as <- _; split; reflexivity. }
  destruct Hsel as [Hs Hh]. destruct ok.
  - eexists. split; [reflexivity |]. simpl. do 5 (split; [reflexivity |]).
    split; [| split; assumption].
    unfold load_tree_from_model in E. destruct model as [| | cl]; [discriminate | |].
    + match goal with E : (let '(_, _) := layout_tree fuel ?cs ?ns in _) = _ |- _ =>
        pose proof (layout_tree_moved fuel cs ns) as M;
        assert (R : dict_mem "root" ns = true)
          by (apply create_tree_from_data_mem, dict_mem_set_same);
        destruct (layout_tree fuel cs ns) as [st ns'] end.
      injection E as <- _. simpl in M |- *. rewrite <- (moved_mem _ _ _ M). exact R.
    + match goal with E : (let '(_, _) := layout_tree fuel ?cs ?ns in _) = _ |- _ =>
        pose proof (layout_tree_moved fuel cs ns) as M; revert E M end.
      set (b1 := add_node draw _ _ _ _ _).
      assert (R1 : dict_mem "root" (b_nodes b1) = true) by apply dict_mem_set_same.
      destruct (match cl with Some child_list => load_structure draw child_list b1
                | None => (b1, []) end) as [b' cats] eqn:Ecl.
      assert (R' : dict_mem "root" (b_nodes b') = true).
      { destruct cl as [child_list |].
        - pose proof (load_structure_mem draw child_list b1 _ R1) as G.
          rewrite Ecl in G. exact G.
        - injection Ecl as <- _. exact R1. }
      set (b2 := if Nat.leb _ 1 then _ else b').
      assert (R2 : dict_mem "root" (b_nodes b2) = true)
        by (unfold b2; destruct (Nat.leb _ 1); [apply create_tree_from_data_mem |]; exact R').
      intros E M. destruct (layout_tree fuel (b_conns b2) (b_nodes b2)) as [st ns'].
      injection E as <- _. simpl in M |- *. rewrite <- (moved_mem _ _ _ M). exact R2.
  - unfold show_demo. destruct (create_demo_tree_root draw' v1) as (v2 & E2 & R2 & S2 & H2).
    rewrite E2. simpl. eexists. split; [reflexivity |]. simpl.
    do 5 (split; [reflexivity |]). split; [exact R2 |]. split; congruence.
Qed.

(** ** Loading a [treeStructure] *)

Lemma layout_children_done : forall rec nid level count cs i ns,
  (forall ns0 c, moved ns0 (snd (rec ns0 c))) ->
  (forall ns0 c, In c cs -> moved ns ns0 -> fst (rec ns0 c) = Done) ->
  dict_mem nid ns = true -> (forall c, In c cs -> dict_mem c ns = true) ->
  fst (layout_children rec nid level count i cs ns) = Done.
Proof.
  intros rec nid level count cs. induction cs as [| c cs IH]; intros i ns Hmv Hd Hn Hc;
    [reflexivity |].
  simpl. unfold lookup_node.
  destruct (dict_get c ns) as [child |] eqn:Ec;
    [| specialize (Hc c (or_introl eq_refl)); unfold dict_mem in Hc; rewrite Ec in Hc; discriminate].
  destruct (dict_get nid ns) as [parent |] eqn:Ep;
    [| unfold dict_mem in Hn; rewrite Ep in Hn; discriminate].
  match goal with |- context[rec ?ns1 c] =>
    assert (M1 : moved ns ns1) by (apply moved_set; exact Ec);
    pose proof (Hmv ns1 c) as M2; pose proof (Hd ns1 c (or_introl eq_refl) M1) as D;
    destruct (rec ns1 c) as [st ns2] end.
  simpl in D, M2. subst st. simpl.
  assert (M : moved ns ns2) by (eapply moved_trans; eassumption).
  apply IH.
  - exact Hmv.
  - intros ns0 c' Hc' M0. apply Hd; [right; exact Hc' | eapply moved_trans; eassumption].
  - rewrite <- (moved_mem _ _ _ M). exact Hn.
  - intros c' Hc'. rewrite <- (moved_mem _ _ _ M). apply Hc. right; exact Hc'.
Qed.

Lemma layout_level_done : forall conns (r : string -> nat) B,
  (forall s d, In (s, d) conns -> (r s < r d <= B)%nat) ->
  forall fuel k ns L, (B - r k < fuel)%nat -> dict_mem k ns = true ->
  (forall s d, In (s, d) conns -> dict_mem s ns = true /\ dict_mem d ns = true) ->
  fst (layout_level fuel conns ns k L) = Done.
Proof.
  intros conns r B Hrank. induction fuel as [| f IH]; intros k ns L Hf Hk Hg; [lia |].
  simpl. destruct (children_of k conns) as [| c0 cs0] eqn:Ech; [reflexivity |].
  unfold lookup_node. destruct (dict_get k ns) eqn:Ek;
    [| unfold dict_mem in Hk; rewrite Ek in Hk; discriminate].
  rewrite <- Ech. apply layout_children_done.
  - intros ns0 c. apply layout_level_moved.
  - intros ns0 c Hc M. apply in_children_of in Hc.
    apply IH.
    + specialize (Hrank _ _ Hc). lia.
    + rewrite <- (moved_mem _ _ _ M). exact (proj2 (Hg _ _ Hc)).
    + intros s d Hsd. rewrite <- !(moved_mem _ _ _ M). exact (Hg _ _ Hsd).
  - exact Hk.
  - intros c Hc. apply in_children_of in Hc. exact (proj2 (Hg _ _ Hc)).
Qed.

Lemma underscore_count_app : forall a b,
  underscore_count (a ++ b) = (underscore_count a + underscore_count b)%nat.
Proof. induction a as [| c a IH]; intros b; simpl; [reflexivity | rewrite IH; lia]. Qed.

Lemma digit_not_underscore : forall m, (m < 10)%nat ->
  Ascii.eqb (Ascii.ascii_of_nat (48 + m)) (Ascii.ascii_of_nat 95) = false.
Proof.
  intros m Hm. destruct (Ascii.eqb _ _) eqn:E; [| reflexivity].
  apply Ascii.eqb_eq in E. apply (f_equal Ascii.nat_of_ascii) in E.
  rewrite !Ascii.nat_ascii_embedding in E by lia. lia.
Qed.

Lemma underscore_count_digits : forall fuel n acc,
  underscore_count (digits_of fuel n acc) = underscore_count acc.
Proof.
  induction fuel as [| f IH]; intros n acc; [reflexivity |].
  cbn [digits_of].
  assert (Hc : underscore_count (String (Ascii.ascii_of_nat (48 + n mod 10)) acc)
               = underscore_count acc).
  { cbn [underscore_count].
    rewrite digit_not_underscore by (apply Nat.mod_upper_bound; lia). reflexivity. }
  destruct (Nat.ltb n 10); [exact Hc | rewrite IH; exact Hc].
Qed.

Lemma underscore_count_nat : forall i, underscore_count (string_of_nat i) = O.
Proof. intros i. unfold string_of_nat. rewrite underscore_count_digits. reflexivity. Qed.

Lemma length_dict_set : forall {V} k (val : V) d,
  (List.length d <= List.length (dict_set k val d))%nat.
Proof.
  intros V k val d. induction d as [| [k' v'] d IH]; simpl; [lia |].
  destruct (String.eqb k k'); simpl; lia.
Qed.

Lemma structure_step : forall draw b t k p,
  structure_inv b -> dict_mem p (b_nodes b) = true -> k <> "root"%string ->
  (underscore_count p < underscore_count k <= 2)%nat ->
  structure_inv (connect (add_node draw b t k (Some p) None) p k) /\
  (2 <= List.length (b_nodes (connect (add_node draw b t k (Some p) None) p k)))%nat /\
  (List.length (b_nodes b) <= List.length (b_nodes (connect (add_node draw b t k (Some p) None) p k)))%nat.
Proof.
  intros draw b t k p [(r0 & rest & Hns & Hr0) Hc] Hp Hk Hu.
  assert (E : String.eqb k "root" = false) by (apply String.eqb_neq; exact Hk).
  set (n := new_TreeNode3D (draw (b_made b)) t k (Some p)).
  assert (Hnodes : b_nodes (connect (add_node draw b t k (Some p) None) p k) =
                   dict_set k n (b_nodes b)) by reflexivity.
  assert (Hconns : b_conns (connect (add_node draw b t k (Some p) None) p k) =
                   b_conns b ++ [(p, k)]) by reflexivity.
  assert (Hhead : dict_set k n (b_nodes b) = ("root"%string, r0) :: dict_set k n rest)
    by (rewrite Hns; cbn [dict_set]; rewrite E; reflexivity).
  rewrite Hnodes. split; [split | split].
  - exists r0, (dict_set k n rest). split; [exact Hhead | exact Hr0].
  - rewrite Hconns. intros s d Hin. apply in_app_or in Hin as [Hin | [Ee | []]].
    + destruct (Hc s d Hin) as (Hs & Hd & Hr).
      split; [| split; [| exact Hr]]; apply dict_mem_set_mono; assumption.
    + injection Ee as <- <-.
      split; [apply dict_mem_set_mono; exact Hp | split; [apply dict_mem_set_same | exact Hu]].
  - rewrite Hhead. cbn [List.length].
    destruct rest as [| [k' v'] rest]; cbn [dict_set List.length]; [lia |].
    destruct (String.eqb k k'); cbn [List.length]; lia.
  - apply length_dict_set.
Qed.

Lemma node_id_not_root : forall s, ("node_" ++ s)%string <> "root"%string.
Proof. intros s H. discriminate H. Qed.

Lemma load_structure_inv : forall draw cl b,
  structure_inv b -> dict_mem "root" (b_nodes b) = true ->
  structure_inv (fst (load_structure draw cl b)) /\
  (snd (load_structure draw cl b) = [] \/
   (2 <= List.length (b_nodes (fst (load_structure draw cl b))))%nat).
Proof.
  intros draw cl b Hb Hr. unfold load_structure. cbv zeta.
  match goal with |- context[fold_left ?f cl ?a] =>
    pose proof (fold_left_inv (fun acc : Build * list (string * PyValue) * nat =>
                  (structure_inv (fst (fst acc)) /\
                   dict_mem "root" (b_nodes (fst (fst acc))) = true) /\
                  (snd (fst acc) = [] \/ (2 <= List.length (b_nodes (fst (fst acc))))%nat))
                  f cl a) as Hf;
    destruct (fold_left f cl a) as [[b' cats] i] end.
  cbv beta iota delta [fst snd] in Hf |- *.
  destruct Hf as [[H1 H2] H3]; [| | split; assumption].
  { split; [split; assumption | left; reflexivity]. }
  intros [[b0 cats0] i0] node [[H0 R0] _].
  cbv beta iota zeta delta [fst snd] in H0, R0 |- *.
  set (nid := ("node_" ++ string_of_nat i0)%string).
  assert (Unid : underscore_count nid = 1%nat)
    by (unfold nid; rewrite underscore_count_app, underscore_count_nat; reflexivity).
  set (t := match m_title node with Some t => t | None => _ end).
  destruct (structure_step draw b0 t nid "root" H0 R0 (node_id_not_root _))
    as (H1 & L1 & _); [rewrite Unid; cbn; lia |].
  set (b1 := connect (add_node draw b0 t nid (Some "root"%string) None) "root" nid) in *.
  assert (R1 : dict_mem "root" (b_nodes b1) = true) by (apply dict_mem_set_mono; exact R0).
  assert (N1 : dict_mem nid (b_nodes b1) = true) by apply dict_mem_set_same.
  destruct (m_children node) as [children |].
  2: { cbv beta iota delta [fst snd]. split; [split |]; auto. }
  match goal with |- context[fold_left ?g children ?c] =>
    pose proof (fold_left_inv (fun acc : Build * list (string * PyValue) * nat =>
                  structure_inv (fst (fst acc)) /\
                  dict_mem "root" (b_nodes (fst (fst acc))) = true /\
                  dict_mem nid (b_nodes (fst (fst acc))) = true /\
                  (2 <= List.length (b_nodes (fst (fst acc))))%nat) g children c) as Hg;
    destruct (fold_left g children c) as [[b2 cats2] j] end.
  cbv beta iota delta [fst snd] in Hg |- *.
  destruct Hg as (G1 & G2 & _ & G4); [auto | | split; [split |]; auto].
  intros [[b3 cats3] j3] child (I1 & I2 & I3 & I4).
  cbv beta iota zeta delta [fst snd] in I1, I2, I3, I4 |- *.
  set (cid := (nid ++ "_" ++ string_of_nat j3)%string).
  set (ct := match child with Some ct => ct | None => _ end).
  destruct (structure_step draw b3 ct cid nid I1 I3) as (J1 & _ & J3).
  - unfold cid, nid. intros E. discriminate E.
  - unfold cid. rewrite !underscore_count_app, underscore_count_nat, Unid. cbn. lia.
  - split; [exact J1 | split; [apply dict_mem_set_mono; exact I2 |
      split; [apply dict_mem_set_mono; exact I3 | lia]]].
Qed.

Lemma structure_layout_done : forall fuel b,
  structure_inv b -> (3 <= fuel)%nat ->
  fst (layout_tree fuel (b_conns b) (b_nodes b)) = Done.
Proof.
  intros fuel b [(r0 & rest & Hns & Hr0) Hc] Hf. unfold layout_tree. rewrite Hns.
  cbn [find_root]. rewrite Hr0.
  change (py_truthy "root") with true. cbv iota.
  unfold lookup_node. cbn [dict_get]. rewrite String.eqb_refl. rewrite <- Hns.
  apply (layout_level_done (b_conns b) underscore_count 2).
  - intros s d Hin. exact (proj2 (proj2 (Hc s d Hin))).
  - change (underscore_count "root") with O. lia.
  - apply dict_mem_set_same.
  - intros s d Hin. destruct (Hc s d Hin) as (Hs & Hd & _).
    split; apply dict_mem_set_mono; assumption.
Qed.

(** A model with a [treeStructure] always loads, given a recursion depth
    of at least 3 (root, top-level nodes, their children):
    [load_tree_from_model] returns [True], whatever the [childList] holds
    (or if it has none), so [load_tree] shows the loaded tree with the
    default camera and never falls back to the demo. *)
Theorem structure_model_loads :
  forall (draw draw' : nat -> Cosmetic) (fuel : nat) (cl : option (list ModelNode))
         (v : TreeView3D),
  (3 <= fuel)%nat ->
  snd (load_tree_from_model draw fuel (ModelStructure cl) v) = true /\
  load_tree draw draw' fuel (ModelStructure cl) v =
    Ok (reset_view (fst (load_tree_from_model draw fuel (ModelStructure cl) v))).
Proof.
  intros draw draw' fuel cl v Hf.
  assert (Hok : snd (load_tree_from_model draw fuel (ModelStructure cl) v) = true).
  { unfold load_tree_from_model.
    set (b1 := add_node draw _ _ _ _ _).
    assert (I1 : structure_inv b1).
    { split; [| intros s d []].
      eexists; eexists. split; [reflexivity | reflexivity]. }
    assert (R1 : dict_mem "root" (b_nodes b1) = true) by reflexivity.
    destruct (match cl with Some child_list => load_structure draw child_list b1
              | None => (b1, []) end) as [b' cats] eqn:Ecl.
    assert (I' : structure_inv b' /\ (cats = [] \/ (2 <= List.length (b_nodes b'))%nat)).
    { destruct cl as [child_list |].
      - pose proof (load_structure_inv draw child_list b1 I1 R1) as G.
        rewrite Ecl in G. exact G.
      - injection Ecl as <- <-. split; [exact I1 | left; reflexivity]. }
    destruct I' as [I' C'].
    assert (Eb2 : (if Nat.leb (List.length (b_nodes b')) 1
                   then create_tree_from_data draw (VDict cats) (Some "root"%string) 1 b'
                   else b') = b').
    { destruct (Nat.leb (List.length (b_nodes b')) 1) eqn:Le; [| reflexivity].
      apply Nat.leb_le in Le. destruct C' as [-> | C']; [reflexivity | lia]. }
    rewrite Eb2. pose proof (structure_layout_done fuel b' I' Hf) as D.
    destruct (layout_tree fuel (b_conns b') (b_nodes b')) as [st ns].
    cbn [fst] in D. subst st. reflexivity. }
  split; [exact Hok |].
  unfold load_tree. destruct (load_tree_from_model draw fuel (ModelStructure cl) v) as [v1 ok].
  cbn [snd] in Hok. subst ok. reflexivity.
Qed.

(** ** Instances of the properties above *)

Lemma wheel_scale_direction_witness :
  0.1 <= scale root_scene <= 3 /\ scale root_scene <= scale (wheelEvent root_scene 120).
Proof.
  assert (H : 0.1 <= scale root_scene <= 3) by (simpl; lra).
  split; [exact H |]. apply (proj1 (wheel_scale_direction root_scene 120 H)). lia.
Defined.

Lemma update_zoom_range_witness :
  (10 <= 150 <= 300)%Z /\ scale (update_zoom root_scene 150) = IZR 150 / 100.
Proof.
  assert (H : (10 <= 150 <= 300)%Z) by lia.
  split; [exact H | exact (proj1 (update_zoom_range root_scene 150 H))].
Defined.

Lemma update_rotation_range_witness :
  (-100 <= 50 <= 100)%Z /\ (-100 <= -25 <= 100)%Z /\
  - PI <= rotation_x (update_rotation root_scene 50 (-25)) <= PI.
Proof.
  assert (H1 : (-100 <= 50 <= 100)%Z) by lia.
  assert (H2 : (-100 <= -25 <= 100)%Z) by lia.
  split; [exact H1 | split; [exact H2 |]].
  exact (proj1 (update_rotation_range root_scene 50 (-25) H1 H2)).
Defined.


Lemma rotate_moves_telescope_witness :
  let v := with_mouse root_scene true (0%Z, 0%Z) in
  mouse_down v = true /\ dragging_node v = None /\
  exists v', run_moves v [(10%Z, 0%Z); (25%Z, 5%Z)] = Ok v' /\
    rotation_y v' = rotation_y v + IZR (25 - 0) * 0.01.
Proof.
  intros v. assert (Hd : mouse_down v = true) by reflexivity.
  assert (Hn : dragging_node v = None) by reflexivity.
  split; [exact Hd | split; [exact Hn |]].
  destruct (rotate_moves_telescope [(10%Z, 0%Z); (25%Z, 5%Z)] v Hd Hn)
    as (v' & Hr & Hy & _).
  exists v'. split; [exact Hr | exact Hy].
Defined.

Lemma find_node_at_position_outcomes_witness :
  find_node_at_position root_scene 300 200 = Ok (Some "root"%string) /\
  exists k n, In (k, n) (nodes root_scene) /\ node_id n = "root"%string /\
              node_hit root_scene (IZR 300) (IZR 200) n = Ok true.
Proof.
  assert (E : find_node_at_position root_scene 300 200 = Ok (Some "root"%string)).
  { unfold find_node_at_position, hit_order. simpl.
    rewrite sample_node_hit by reflexivity. reflexivity. }
  split; [exact E |].
  exact (proj1 (find_node_at_position_outcomes root_scene 300 200) "root"%string E).
Defined.

Lemma hit_test_finds_covering_node_witness :
  exists k' m, In (k', m) (nodes root_scene) /\
    find_node_at_position root_scene 300 200 = Ok (Some (node_id m)) /\
    node_hit root_scene (IZR 300) (IZR 200) m = Ok true /\
    depth_key root_scene m <= depth_key root_scene (sample_node "root" None).
Proof.
  apply (hit_test_finds_covering_node root_scene 300 200 "root" (sample_node "root" None)).
  - left; reflexivity.
  - intros k' m [E | []]. injection E as _ <-. simpl. lra.
  - simpl. replace (300 - 300) with 0 by ring. rewrite Rabs_R0.
    replace (60 * (800 / (0 + 700 + 800)) * 1 / 2 - 1) with 15 by field. lra.
  - simpl. replace (200 - 200) with 0 by ring. rewrite Rabs_R0.
    replace (30 * (800 / (0 + 700 + 800)) * 1 / 2 - 1) with 7 by field. lra.
Defined.

Lemma press_frame_witness :
  exists v', mousePressEvent root_scene 300 200 = Ok v' /\
    mouse_down v' = true /\ map fst (nodes v') = map fst (nodes root_scene).
Proof.
  assert (E : exists v', mousePressEvent root_scene 300 200 = Ok v').
  { eexists. unfold mousePressEvent, find_node_at_position, hit_order. simpl.
    rewrite sample_node_hit by reflexivity. simpl. reflexivity. }
  destruct E as [v' E]. exists v'. split; [exact E |].
  destruct (press_frame root_scene v' 300 200 E) as (H1 & _ & _ & _ & _ & _ & _ & _ & _ & H2 & _).
  split; [exact H1 | exact H2].
Defined.

Lemma drag_move_frame_witness :
  exists v', mouseMoveEvent dragging_scene 310 200 = Ok v' /\
    rotation_y v' = rotation_y dragging_scene /\
    map fst (nodes v') = map fst (nodes dragging_scene).
Proof.
  assert (E : exists v', mouseMoveEvent dragging_scene 310 200 = Ok v').
  { eexists. unfold mouseMoveEvent. simpl.
    rewrite drag_world_offset_ok by (simpl; lra). reflexivity. }
  destruct E as [v' E]. exists v'. split; [exact E |].
  destruct (drag_move_frame dragging_scene v' 310 200 "root"
              (set_dragging (sample_node "root" None) true) eq_refl eq_refl E)
    as (_ & _ & H1 & _ & _ & _ & _ & _ & _ & H2 & _).
  split; [exact H1 | exact H2].
Defined.

Lemma node_opacity_spec_witness :
  let a := sample_node "a" (Some "root"%string) in
  let b := set_position (sample_node "b" (Some "root"%string)) 0 0 50 in
  0 < z a + camera_distance depth_scene + 800 <= z b + camera_distance depth_scene + 800 /\
  exists o1 o2, node_opacity depth_scene a = Ok o1 /\ node_opacity depth_scene b = Ok o2 /\
                o2 <= o1.
Proof.
  intros a b.
  assert (H : 0 < z a + camera_distance depth_scene + 800 <=
              z b + camera_distance depth_scene + 800) by (simpl; lra).
  split; [exact H |].
  exact (proj2 (proj2 (proj2 (proj2 (node_opacity_spec depth_scene a)))) b H).
Defined.

Lemma highlighted_nodes_spec_witness :
  let v := with_scene (sample_view chain_nodes (Some "root"%string)) chain_nodes chain_conns in
  (forall a b, In (a, b) (connections v) -> (chain_rank a < chain_rank b <= 2)%nat) /\
  exists hs, highlighted_nodes 3 v = Ok hs /\ NoDup hs /\
    forall q, In q hs <-> q = "root"%string \/ exists D, reach (connections v) "root" q (S D).
Proof.
  intros v.
  assert (Hr : forall a b, In (a, b) (connections v) -> (chain_rank a < chain_rank b <= 2)%nat).
  { intros a b Hin. simpl in Hin.
    destruct Hin as [E | [E | []]]; inversion E; subst; unfold chain_rank; simpl; lia. }
  split; [exact Hr |].
  apply (highlighted_nodes_spec 3 v chain_rank 2 "root" Hr eq_refl eq_refl).
  unfold chain_rank; simpl; lia.
Defined.

Lemma structure_model_loads_witness :
  (3 <= 3)%nat /\
  snd (load_tree_from_model draw0 3
         (ModelStructure (Some [mkModelNode (Some "A"%string) (Some [Some "B"%string])]))
         root_scene) = true.
Proof.
  split; [lia |].
  exact (proj1 (structure_model_loads draw0 draw0 3 _ root_scene ltac:(lia))).
Defined.
